(** * Scaling engine of [fetch_process/convert.py]

    A shallow embedding of the [Processing] class: the five pixel scaling
    methods ([linear_scaling], [log_scaling], [sqrt_scaling],
    [hist_eq_scaling], [asinh_scaling]) and the dispatcher [process_fits].

    Number model.  A pixel is an IEEE-754 double in the source.  Here a
    double is a value of [fl]: a real number, one of the two infinities, or
    NaN.  The arithmetic follows the IEEE rules for the special values
    (inf - inf = NaN, 0/0 = NaN, x/0 = +-inf, NaN propagates, comparisons
    with NaN are false); finite results are exact reals: rounding, overflow
    to infinity and the sign of zero are not modelled.  A statement whose
    conclusion the code would lose to an overflow (of
    [scale_max - scale_min], say) or to the absorption of a small term
    (in [scale_max - scale_min + 1]) bounds the magnitudes involved in its
    hypotheses, with [safe] and [resolution].

    The numpy functions the source calls ([np.nanmin], [np.clip],
    [np.percentile], [np.histogram], [np.interp], ...) are modelled in
    [Module Np] from their documented behaviour. *)

From Stdlib Require Import String.
From Stdlib Require Import Reals Lra Lia ZArith Bool Arith List.
From Stdlib Require Import Sorting.Sorted Sorting.Permutation.
Import ListNotations.
Open Scope R_scope.

(* ================================================================= *)
(** ** Floating-point values *)

Inductive fl : Type :=
| Fin (r : R)
| PInf
| NInf
| NaN.

Definition Rleb (a b : R) : bool := if Rle_dec a b then true else false.
Definition Rltb (a b : R) : bool := if Rlt_dec a b then true else false.
Definition Reqb (a b : R) : bool := if Req_dec_T a b then true else false.

Definition isfinite (x : fl) : bool :=
  match x with Fin _ => true | _ => false end.

Definition isnan (x : fl) : bool :=
  match x with NaN => true | _ => false end.

(** IEEE comparisons: anything compared with NaN is false. *)
Definition fleb (x y : fl) : bool :=
  match x, y with
  | NaN, _ | _, NaN => false
  | Fin a, Fin b => Rleb a b
  | NInf, _ => true
  | _, PInf => true
  | _, _ => false
  end.

Definition fltb (x y : fl) : bool :=
  match x, y with
  | NaN, _ | _, NaN => false
  | Fin a, Fin b => Rltb a b
  | PInf, _ => false
  | _, NInf => false
  | _, _ => true
  end.

Definition feqb (x y : fl) : bool :=
  match x, y with
  | Fin a, Fin b => Reqb a b
  | PInf, PInf | NInf, NInf => true
  | _, _ => false
  end.

Definition fle (x y : fl) : Prop := fleb x y = true.
Definition flt (x y : fl) : Prop := fltb x y = true.

Definition fneg (x : fl) : fl :=
  match x with
  | Fin r => Fin (- r)
  | PInf => NInf
  | NInf => PInf
  | NaN => NaN
  end.

(** The sum of two finite values is their exact real sum: it does not
    overflow to an infinity, and a small term is not absorbed by a large
    one.  The same holds of the other operations on finite values. *)
Definition fadd (x y : fl) : fl :=
  match x, y with
  | NaN, _ | _, NaN => NaN
  | Fin a, Fin b => Fin (a + b)
  | PInf, NInf | NInf, PInf => NaN
  | PInf, _ | _, PInf => PInf
  | NInf, _ | _, NInf => NInf
  end.

Definition fsub (x y : fl) : fl := fadd x (fneg y).

(** An infinity [i] multiplied by the finite value [a]. *)
Definition inf_times (i : fl) (a : R) : fl :=
  if Rlt_dec 0 a then i else if Rlt_dec a 0 then fneg i else NaN.

Definition fmul (x y : fl) : fl :=
  match x, y with
  | NaN, _ | _, NaN => NaN
  | Fin a, Fin b => Fin (a * b)
  | Fin a, i => inf_times i a
  | i, Fin a => inf_times i a
  | PInf, PInf | NInf, NInf => PInf
  | _, _ => NInf
  end.

(** Division; a zero divisor is taken as +0. *)
Definition fdiv (x y : fl) : fl :=
  match x, y with
  | NaN, _ | _, NaN => NaN
  | Fin a, Fin b =>
      if Req_dec_T b 0
      then (if Rlt_dec 0 a then PInf else if Rlt_dec a 0 then NInf else NaN)
      else Fin (a / b)
  | Fin _, _ => Fin 0
  | i, Fin b => if Rlt_dec b 0 then fneg i else i
  | _, _ => NaN
  end.

(** [np.maximum] / [np.minimum]: NaN propagates. *)
Definition fmaximum (x y : fl) : fl :=
  match x, y with
  | NaN, _ | _, NaN => NaN
  | _, _ => if fleb x y then y else x
  end.

Definition fminimum (x y : fl) : fl :=
  match x, y with
  | NaN, _ | _, NaN => NaN
  | _, _ => if fleb x y then x else y
  end.

(** [np.fmax] / [np.fmin]: a NaN operand is ignored. *)
Definition ffmax (x y : fl) : fl :=
  match x, y with
  | NaN, _ => y
  | _, NaN => x
  | _, _ => if fleb x y then y else x
  end.

Definition ffmin (x y : fl) : fl :=
  match x, y with
  | NaN, _ => y
  | _, NaN => x
  | _, _ => if fleb x y then x else y
  end.

Definition Rlog10 (r : R) : R := ln r / ln 10.

Definition flog10 (x : fl) : fl :=
  match x with
  | Fin r => if Rlt_dec 0 r then Fin (Rlog10 r)
             else if Req_dec_T r 0 then NInf else NaN
  | PInf => PInf
  | NInf => NaN
  | NaN => NaN
  end.

Definition fsqrt (x : fl) : fl :=
  match x with
  | Fin r => if Rle_dec 0 r then Fin (sqrt r) else NaN
  | PInf => PInf
  | NInf => NaN
  | NaN => NaN
  end.

Definition farcsinh (x : fl) : fl :=
  match x with
  | Fin r => Fin (arcsinh r)
  | PInf => PInf
  | NInf => NInf
  | NaN => NaN
  end.

(* ================================================================= *)
(** ** Exceptions and results *)

Inductive exn : Type :=
| ValueError_zero_size_reduction
    (* np.nanmin / np.nanmax of an empty array:
       "zero-size array to reduction operation fmin which has no identity" *)
| IndexError_out_of_bounds
    (* data[frame] with frame out of range; np.percentile of an empty array:
       "index -1 is out of bounds for axis 0 with size 0" *)
| ValueError_percentile_range
    (* "Percentiles must be in the range [0, 100]" *)
| ValueError_unknown_method (m : string)
    (* raise ValueError(f"Unknown scaling method: {scaling_method}") *)
| ZeroDivisionError
    (* Python's own float division by zero: "float division by zero" *)
| TypeError_unexpected_keyword (k : string).
    (* "... got an unexpected keyword argument 'k'" *)

Inductive result (A : Type) : Type :=
| Ok (a : A)
| Raise (e : exn).

Arguments Ok {A} a.
Arguments Raise {A} e.

Definition bind {A B : Type} (m : result A) (k : A -> result B) : result B :=
  match m with
  | Ok a => k a
  | Raise e => Raise e
  end.

Notation "x <- m ;; k" := (bind m (fun x => k))
  (at level 61, m at next level, right associativity).
Notation "' p <- m ;; k" := (bind m (fun x => let p := x in k))
  (at level 61, p pattern, m at next level, right associativity).

Definition is_raise {A : Type} (r : result A) : Prop :=
  match r with Raise _ => True | Ok _ => False end.

(* ================================================================= *)
(** ** Arrays *)

(** An [np.ndarray] of doubles: its shape and its entries in row-major
    (C) order. *)
Record ndarray : Type := mk_ndarray {
  shape : list nat;
  flat : list fl
}.

Definition ndim (a : ndarray) : nat := length (shape a).

Definition size_of (sh : list nat) : nat := fold_right Nat.mul 1%nat sh.

Definition wf_ndarray (a : ndarray) : Prop :=
  length (flat a) = size_of (shape a).

(** Elementwise application, shape kept. *)
Definition amap (f : fl -> fl) (a : ndarray) : ndarray :=
  {| shape := shape a; flat := map f (flat a) |}.

(* ================================================================= *)
(** ** The numpy functions used by the source *)

Module Np.

(** [a[np.isfinite(a)]]: boolean-mask selection of the finite entries. *)
Definition select_finite (a : list fl) : list fl := filter isfinite a.

(** [np.fmin.reduce] / [np.fmax.reduce] behind [np.nanmin] / [np.nanmax]:
    NaN entries are ignored, an all-NaN array gives NaN (with a
    RuntimeWarning only), an empty array raises ValueError. *)
Definition nanmin (a : list fl) : result fl :=
  match a with
  | [] => Raise ValueError_zero_size_reduction
  | x :: t => Ok (fold_left ffmin t x)
  end.

Definition nanmax (a : list fl) : result fl :=
  match a with
  | [] => Raise ValueError_zero_size_reduction
  | x :: t => Ok (fold_left ffmax t x)
  end.

(** [np.clip(x, lo, hi)] = [np.minimum(np.maximum(x, lo), hi)]. *)
Definition clip (x lo hi : fl) : fl := fminimum (fmaximum x lo) hi.

(** [np.sort] of an array of finite values (insertion sort). *)
Fixpoint insert (x : R) (l : list R) : list R :=
  match l with
  | [] => [x]
  | y :: t => if Rle_dec x y then x :: y :: t else y :: insert x t
  end.

Fixpoint sort (l : list R) : list R :=
  match l with
  | [] => []
  | x :: t => insert x (sort t)
  end.

(** The real values of the finite entries of an array. *)
Fixpoint reals (a : list fl) : list R :=
  match a with
  | [] => []
  | Fin r :: t => r :: reals t
  | _ :: t => reals t
  end.

(** numpy's [_lerp(a, b, t)]. *)
Definition lerp (a b t : R) : R := a + (b - a) * t.

(** One percentile of a non-empty array of finite values, method
    "linear": the array is sorted, the virtual index is [(n-1) * q/100],
    and the result interpolates between its two neighbours.  A virtual
    index at or past the last position takes the last element, one below
    zero the first ([_get_indexes]). *)
Definition percentile1 (a : list R) (q : R) : R :=
  let arr := sort a in
  let n := length arr in
  let virtual := INR (n - 1) * (q / 100) in
  if Rle_dec (INR (n - 1)) virtual then nth (n - 1) arr 0
  else if Rlt_dec virtual 0 then nth 0 arr 0
  else
    let previous := Z.to_nat (Zfloor virtual) in
    let gamma := virtual - INR previous in
    lerp (nth previous arr 0) (nth (S previous) arr 0) gamma.

(** [_quantile_is_valid] on [q / 100]. *)
Definition percentile_is_valid (q : fl) : bool :=
  match q with
  | Fin r => Rleb 0 r && Rleb r 100
  | _ => false
  end.

Definition fl_real (q : fl) : R :=
  match q with Fin r => r | _ => 0 end.

(** [np.percentile(a, (q1, q2))] for an array [a] of finite values (the
    source only ever passes [valid_data]).  The percentiles are checked
    first; an empty array then fails on [arr[-1]] with IndexError. *)
Definition percentile (a : list fl) (q : fl * fl) : result (fl * fl) :=
  if percentile_is_valid (fst q) && percentile_is_valid (snd q) then
    match reals a with
    | [] => Raise IndexError_out_of_bounds
    | r :: t =>
        Ok (Fin (percentile1 (r :: t) (fl_real (fst q))),
            Fin (percentile1 (r :: t) (fl_real (snd q))))
    end
  else Raise ValueError_percentile_range.

(** Bin [i] of the edges [np.arange(nbins + 1)]: [i <= x < i+1], the last
    bin also holding its right edge [x = nbins]. NaN and the infinities
    fall in no bin. *)
Definition in_bin (nbins i : nat) (x : fl) : bool :=
  match x with
  | Fin r =>
      Rleb (INR i) r &&
      (Rltb r (INR (S i)) || (Nat.eqb (S i) nbins && Reqb r (INR nbins)))
  | _ => false
  end.

(** [np.histogram(a, bins=np.arange(nbins + 1))[0]]. *)
Definition histogram (a : list fl) (nbins : nat) : list nat :=
  map (fun i => length (filter (in_bin nbins i) a)) (seq 0 nbins).

Fixpoint cumsum_from (acc : nat) (l : list nat) : list nat :=
  match l with
  | [] => []
  | x :: t => (acc + x)%nat :: cumsum_from (acc + x) t
  end.

(** [ndarray.cumsum()]. *)
Definition cumsum (l : list nat) : list nat := cumsum_from 0 l.

(** [ndarray.max()] of a non-empty integer array. *)
Definition amax (l : list nat) : nat := list_max l.

(** [np.interp(x, xp, fp)] at one point, for [xp = 0, 1, ..., len(fp)-1]
    (the source passes [bins[:-1]] with [bins = np.arange(257)]).
    Follows numpy's C loop: NaN stays NaN; [x] right of the last sample
    takes [fp[-1]], left of the first [fp[0]]; otherwise, with
    [xp[j] <= x < xp[j+1]], the value is [slope * (x - xp[j]) + fp[j]],
    with the two fallbacks numpy tries when that is NaN. *)
Definition interp (fp : list fl) (x : fl) : fl :=
  let n := length fp in
  match x with
  | NaN => NaN
  | PInf => nth (n - 1) fp NaN
  | NInf => nth 0 fp NaN
  | Fin r =>
      if Rlt_dec (INR (n - 1)) r then nth (n - 1) fp NaN
      else if Rlt_dec r 0 then nth 0 fp NaN
      else
        let j := Z.to_nat (Zfloor r) in
        if Nat.eqb j (n - 1) then nth j fp NaN
        else if Req_dec_T r (INR j) then nth j fp NaN
        else
          let slope :=
            fdiv (fsub (nth (S j) fp NaN) (nth j fp NaN))
                 (Fin (INR (S j) - INR j)) in
          let res := fadd (fmul slope (Fin (r - INR j))) (nth j fp NaN) in
          if isnan res then
            let res' :=
              fadd (fmul slope (Fin (r - INR (S j)))) (nth (S j) fp NaN) in
            if isnan res' && feqb (nth j fp NaN) (nth (S j) fp NaN)
            then nth j fp NaN else res'
          else res
  end.

End Np.

(* ================================================================= *)
(** ** The [Processing] class *)

(** The keyword arguments forwarded by [process_fits(..., **kwargs)]: for
    each of the four parameter names the scaling methods know, whether the
    key is present and with which value ([scale_min=None] is a present key
    holding [None]); [kw_others] lists every other key of the dict. *)
Record kwargs : Type := mk_kwargs {
  kw_scale_min : option (option fl);
  kw_scale_max : option (option fl);
  kw_percentiles : option (fl * fl);
  kw_non_linear : option fl;
  kw_others : list string
}.

Definition no_kwargs : kwargs :=
  {| kw_scale_min := None; kw_scale_max := None; kw_percentiles := None;
     kw_non_linear := None; kw_others := [] |}.

Definition key_if {A : Type} (o : option A) (k : string) : list string :=
  match o with Some _ => [k] | None => [] end.

(** The keys of the dict. *)
Definition keys (kw : kwargs) : list string :=
  key_if (kw_scale_min kw) "scale_min"
  ++ key_if (kw_scale_max kw) "scale_max"
  ++ key_if (kw_percentiles kw) "percentiles"
  ++ key_if (kw_non_linear kw) "non_linear"
  ++ kw_others kw.

Definition mem_string (k : string) (l : list string) : bool :=
  existsb (String.eqb k) l.

(** Python's binding of [**kwargs] against a signature that accepts the
    keywords [accepted] beyond the positional [data]: the first key the
    signature does not have raises TypeError, before the body runs.  (A
    key named [self] or [data] clashes with a positional argument and
    raises TypeError as well; it is one of [kw_others].) *)
Definition bind_kwargs (accepted : list string) (kw : kwargs) : result unit :=
  match find (fun k => negb (mem_string k accepted)) (keys kw) with
  | Some k => Raise (TypeError_unexpected_keyword k)
  | None => Ok tt
  end.

(** An optional parameter: absent or [None] is [None]. *)
Definition opt_param (o : option (option fl)) : option fl :=
  match o with Some v => v | None => None end.

Definition with_default {A : Type} (o : option A) (d : A) : A :=
  match o with Some v => v | None => d end.

Module Processing.

(** Lines 43-47 of [linear_scaling], repeated verbatim at 67-71
    ([log_scaling]) and 145-149 ([asinh_scaling]): the finite entries are
    selected, and a bound that was not supplied is their minimum or
    maximum. *)
Definition extrema_range (data : list fl) (scale_min scale_max : option fl)
  : result (fl * fl) :=
  let valid_data := Np.select_finite data in
  lo <- match scale_min with
        | None => Np.nanmin valid_data
        | Some v => Ok v
        end;;
  hi <- match scale_max with
        | None => Np.nanmax valid_data
        | Some v => Ok v
        end;;
  Ok (lo, hi).

(** Lines 92-98 of [sqrt_scaling]: when a bound is missing both percentiles
    are computed over the finite entries, and each missing bound takes
    its percentile. *)
Definition percentile_range (data : list fl) (scale_min scale_max : option fl)
    (percentiles : fl * fl) : result (fl * fl) :=
  let valid_data := Np.select_finite data in
  match scale_min, scale_max with
  | Some lo, Some hi => Ok (lo, hi)
  | _, _ =>
      p <- Np.percentile valid_data percentiles;;
      Ok (match scale_min with None => fst p | Some v => v end,
          match scale_max with None => snd p | Some v => v end)
  end.

Definition linear_scaling (data : ndarray) (scale_min scale_max : option fl)
  : result ndarray :=
  r <- extrema_range (flat data) scale_min scale_max;;
  let scale_min := fst r in
  let scale_max := snd r in
  Ok (amap (fun x =>
              Np.clip (fdiv (fsub x scale_min) (fsub scale_max scale_min))
                      (Fin 0) (Fin 1))
           data).

Definition log_scaling (data : ndarray) (scale_min scale_max : option fl)
  : result ndarray :=
  r <- extrema_range (flat data) scale_min scale_max;;
  let scale_min := fst r in
  let scale_max := snd r in
  Ok (amap (fun x =>
              let data_clipped := Np.clip x scale_min scale_max in
              fdiv (flog10 (fadd (fsub data_clipped scale_min) (Fin 1)))
                   (flog10 (fadd (fsub scale_max scale_min) (Fin 1))))
           data).

Definition default_percentiles : fl * fl := (Fin 1, Fin 99).

Definition sqrt_scaling (data : ndarray) (scale_min scale_max : option fl)
    (percentiles : fl * fl) : result ndarray :=
  r <- percentile_range (flat data) scale_min scale_max percentiles;;
  let scale_min := fst r in
  let scale_max := snd r in
  Ok (amap (fun x =>
              let data_clipped := Np.clip x scale_min scale_max in
              Np.clip (fdiv (fsqrt (fsub data_clipped scale_min))
                            (fsqrt (fsub scale_max scale_min)))
                      (Fin 0) (Fin 1))
           data).

(** Lines 122-123 of [hist_eq_scaling]: [cdf = img_hist.cumsum()] and
    [cdf_normalized = cdf * float(img_hist.max()) / cdf.max()]. *)
Definition cdf_normalized (img_hist : list nat) : list fl :=
  let cdf := Np.cumsum img_hist in
  map (fun c =>
         fdiv (fmul (Fin (INR c)) (Fin (INR (Np.amax img_hist))))
              (Fin (INR (Np.amax cdf))))
      cdf.

Definition hist_eq_scaling (data : ndarray) : result ndarray :=
  let img_hist := Np.histogram (flat data) 256 in
  let cdf_normalized := cdf_normalized img_hist in
  Ok (amap (Np.interp cdf_normalized) data).

Definition default_non_linear : fl := Fin 2.

(** A zero divisor of Python's float division. *)
Definition is_zero (x : fl) : bool :=
  match x with Fin r => Reqb r 0 | _ => false end.

(** The conversion of lines 142-143 ([np.array(data, dtype=np.float64)])
    leaves the values as they are.

    Keyword values are Python numbers, as the docstrings say ([float]).
    When both bounds are supplied, [(scale_max - scale_min) / non_linear]
    at line 151 is therefore Python's own division, which raises
    ZeroDivisionError on a zero divisor.  When a bound was derived it is
    an [np.float64]: the division is numpy's and gives an infinity or NaN
    (with a warning only), as does the array division of line 152. *)
Definition asinh_scaling (data : ndarray) (scale_min scale_max : option fl)
    (non_linear : fl) : result ndarray :=
  let python_numbers :=
    match scale_min, scale_max with
    | Some _, Some _ => true
    | _, _ => false
    end in
  r <- extrema_range (flat data) scale_min scale_max;;
  let scale_min := fst r in
  let scale_max := snd r in
  if python_numbers && is_zero non_linear then Raise ZeroDivisionError
  else
    let factor := farcsinh (fdiv (fsub scale_max scale_min) non_linear) in
    Ok (amap (fun x =>
                fdiv (farcsinh (fdiv (fsub x scale_min) non_linear)) factor)
             data).

(** [data[frame]] on the first axis, a negative index counting from the
    end. *)
Definition index_axis0 (data : ndarray) (frame : Z) : result ndarray :=
  match shape data with
  | [] => Raise IndexError_out_of_bounds
  | d0 :: rest =>
      let i := if (frame <? 0)%Z then (frame + Z.of_nat d0)%Z else frame in
      if ((0 <=? i) && (i <? Z.of_nat d0))%Z then
        let m := size_of rest in
        Ok {| shape := rest;
              flat := firstn m (skipn (Z.to_nat i * m) (flat data)) |}
      else Raise IndexError_out_of_bounds
  end.

(** Lines 172-173: [if data.ndim == 3: data = data[frame]]. *)
Definition select_frame (data : ndarray) (frame : Z) : result ndarray :=
  if Nat.eqb (ndim data) 3 then index_axis0 data frame else Ok data.

(** The keyword names each method's signature has beyond [data]. *)
Definition accepted (scaling_method : string) : list string :=
  if String.eqb scaling_method "asinh"
  then ["scale_min"; "scale_max"; "non_linear"]%string
  else if String.eqb scaling_method "linear"
  then ["scale_min"; "scale_max"]%string
  else if String.eqb scaling_method "log"
  then ["scale_min"; "scale_max"]%string
  else if String.eqb scaling_method "sqrt"
  then ["scale_min"; "scale_max"; "percentiles"]%string
  else [].

(** Lines 177-188: the [if]/[elif] chain on the method name, each branch
    calling its method with [**kwargs]. *)
Definition apply_scaling (data : ndarray) (scaling_method : string)
    (kw : kwargs) : result ndarray :=
  let smin := opt_param (kw_scale_min kw) in
  let smax := opt_param (kw_scale_max kw) in
  if String.eqb scaling_method "asinh" then
    _ <- bind_kwargs (accepted "asinh") kw;;
    asinh_scaling data smin smax
                  (with_default (kw_non_linear kw) default_non_linear)
  else if String.eqb scaling_method "linear" then
    _ <- bind_kwargs (accepted "linear") kw;;
    linear_scaling data smin smax
  else if String.eqb scaling_method "log" then
    _ <- bind_kwargs (accepted "log") kw;;
    log_scaling data smin smax
  else if String.eqb scaling_method "sqrt" then
    _ <- bind_kwargs (accepted "sqrt") kw;;
    sqrt_scaling data smin smax
                 (with_default (kw_percentiles kw) default_percentiles)
  else if String.eqb scaling_method "hist_eq" then
    _ <- bind_kwargs (accepted "hist_eq") kw;;
    hist_eq_scaling data
  else Raise (ValueError_unknown_method scaling_method).

(** Line 191: [(scaled_data - np.nanmin(scaled_data)) /
    (np.nanmax(scaled_data) - np.nanmin(scaled_data))]. *)
Definition normalize (scaled_data : ndarray) : result ndarray :=
  lo <- Np.nanmin (flat scaled_data);;
  hi <- Np.nanmax (flat scaled_data);;
  lo' <- Np.nanmin (flat scaled_data);;
  Ok (amap (fun x => fdiv (fsub x lo) (fsub hi lo')) scaled_data).

(** [process_fits] on the array read from the file ([hdul[1].data]). *)
Definition process_fits (data : ndarray) (scaling_method : string)
    (frame : Z) (kw : kwargs) : result ndarray :=
  data <- select_frame data frame;;
  scaled_data <- apply_scaling data scaling_method kw;;
  normalize scaled_data.

Definition methods : list string :=
  ["linear"; "log"; "sqrt"; "hist_eq"; "asinh"]%string.

End Processing.

Import Processing.

(* ================================================================= *)
(** ** Predicates and sample inputs used in the statements *)

(** A value lies in the display range [[0,1]]. *)
Definition in_unit (x : fl) : Prop := fle (Fin 0) x /\ fle x (Fin 1).

(** An array holds two distinct finite values. *)
Definition two_distinct_finite (a : list fl) : Prop :=
  exists u v : R, In (Fin u) a /\ In (Fin v) a /\ u <> v.

(** A one-row image with the three pixels 0, 5, 10. *)
Definition img_0_5_10 : ndarray :=
  {| shape := [1%nat; 3%nat]; flat := [Fin 0; Fin 5; Fin 10] |}.

(** The array [[-1, 0, 1]]. *)
Definition arr_m1_0_1 : ndarray :=
  {| shape := [3%nat]; flat := [Fin (-1); Fin 0; Fin 1] |}.

(** Keyword arguments holding only [percentiles=(0, 100)]. *)
Definition kw_percentiles_only : kwargs :=
  {| kw_scale_min := None; kw_scale_max := None;
     kw_percentiles := Some (Fin 0, Fin 100);
     kw_non_linear := None; kw_others := [] |}.

(** The one-dimensional array [[0, 5, 10]]. *)
Definition arr1d_0_5_10 : ndarray :=
  {| shape := [3%nat]; flat := [Fin 0; Fin 5; Fin 10] |}.

(** A cube of two frames, each of one row and two columns. *)
Definition cube_2_1_2 : ndarray :=
  {| shape := [2%nat; 1%nat; 2%nat];
     flat := [Fin 1; Fin 2; Fin 3; Fin 4] |}.

(** An image with no finite pixel. *)
Definition img_nan_inf : ndarray :=
  {| shape := [1%nat; 2%nat]; flat := [NaN; PInf] |}.

(** Pixels with a NaN and an infinity among two finite values. *)
Definition pixels_mixed : list fl := [NaN; Fin 3; PInf; Fin 1].

(** A constant image: two pixels of value 5. *)
Definition img_5_5 : ndarray :=
  {| shape := [1%nat; 2%nat]; flat := [Fin 5; Fin 5] |}.

(** The policy the spec asks for on a degenerate (constant) image: the call
    raises, or it returns an array holding one defined (finite) constant. *)
Definition degenerate_policy (r : result ndarray) : Prop :=
  is_raise r \/
  exists out c, r = Ok out /\ Forall (fun x => x = Fin c) (flat out).

(** Piecewise-linear interpolation through the points [(i, l_i)],
    [i = 0 .. length l - 1], constant beyond both ends.  Both
    [Np.percentile1] (over the sorted data) and [Np.interp] (over the
    lookup curve) compute this function. *)
Definition knot_interp (l : list R) (h : R) : R :=
  let n := length l in
  if Rle_dec (INR (n - 1)) h then nth (n - 1) l 0
  else if Rlt_dec h 0 then nth 0 l 0
  else
    let j := Z.to_nat (Zfloor h) in
    Np.lerp (nth j l 0) (nth (S j) l 0) (h - INR j).

(** A list of reals read by index is non-decreasing. *)
Definition nondecreasing (l : list R) : Prop :=
  forall i j, (i <= j)%nat -> (j < length l)%nat -> nth i l 0 <= nth j l 0.

(** The lookup curve of [hist_eq_scaling] as real numbers: the cumulative
    histogram times the peak count over the total count. *)
Definition cdf_normalized_R (img_hist : list nat) : list R :=
  let cdf := Np.cumsum img_hist in
  map (fun c => INR c * INR (Np.amax img_hist) / INR (Np.amax cdf)) cdf.

(** Two pixels of value 255. *)
Definition img_255_255 : ndarray :=
  {| shape := [1%nat; 2%nat]; flat := [Fin 255; Fin 255] |}.

(** One pixel of value 300, outside the histogram's bins. *)
Definition img_300 : ndarray :=
  {| shape := [1%nat; 1%nat]; flat := [Fin 300] |}.

(** Two finite pixels, 300 and 400, both outside the histogram's bins. *)
Definition img_300_400 : ndarray :=
  {| shape := [1%nat; 2%nat]; flat := [Fin 300; Fin 400] |}.

(** A one-row image with the two pixels 0 and 1. *)
Definition img_0_1 : ndarray :=
  {| shape := [1%nat; 2%nat]; flat := [Fin 0; Fin 1] |}.

(** Two pixels of value 255 and one of value -1. *)
Definition img_255_255_m1 : ndarray :=
  {| shape := [1%nat; 3%nat]; flat := [Fin 255; Fin 255; Fin (-1)] |}.

(** A real number clamped to the interval [[lo, hi]], as [np.clip] does on
    finite values. *)
Definition Rclamp (x lo hi : R) : R := Rmin (Rmax x lo) hi.

(** Magnitudes inside which the arithmetic of the scaling formulas is
    carried out without overflow, in double and in single precision alike:
    the finite values of [fl] are real numbers, so a statement whose
    conclusion would be lost to an overflow of [scale_max - scale_min], or
    to [scale_max - scale_min + 1] rounding to 1, assumes these bounds. *)
Definition safe_bound : R := 2 ^ 50.

Definition safe (x : R) : Prop := Rabs x <= safe_bound.

Definition safe_pixels (a : list fl) : Prop :=
  forall r, In (Fin r) a -> safe r.


(* ================================================================= *)
(** ** Facts about the number model *)

(** Decide every real comparison met in the goal, closing the impossible
    branches by linear arithmetic. *)
Ltac rdec :=
  repeat match goal with
    | |- context [Rle_dec ?a ?b] => destruct (Rle_dec a b); try lra
    | |- context [Rlt_dec ?a ?b] => destruct (Rlt_dec a b); try lra
    | |- context [Req_dec_T ?a ?b] => destruct (Req_dec_T a b); try lra
    | H : context [Rle_dec ?a ?b] |- _ => destruct (Rle_dec a b); try lra
    | H : context [Rlt_dec ?a ?b] |- _ => destruct (Rlt_dec a b); try lra
    | H : context [Req_dec_T ?a ?b] |- _ => destruct (Req_dec_T a b); try lra
    end.

Ltac fl_cases :=
  unfold fle, flt, fleb, fltb, feqb, Rleb, Rltb, Reqb in *;
  rdec; try congruence; try lra.

Lemma Rleb_true (a b : R) : Rleb a b = true <-> a <= b.
Proof. unfold Rleb; destruct (Rle_dec a b); split; intros; auto; try congruence; lra. Qed.

Lemma Rltb_true (a b : R) : Rltb a b = true <-> a < b.
Proof. unfold Rltb; destruct (Rlt_dec a b); split; intros; auto; try congruence; lra. Qed.

Lemma Reqb_true (a b : R) : Reqb a b = true <-> a = b.
Proof. unfold Reqb; destruct (Req_dec_T a b); split; intros; auto; try congruence; lra. Qed.

Lemma fle_Fin (a b : R) : fle (Fin a) (Fin b) <-> a <= b.
Proof. unfold fle; simpl; apply Rleb_true. Qed.

Lemma fle_trans (x y z : fl) : fle x y -> fle y z -> fle x z.
Proof. destruct x, y, z; simpl; intros; fl_cases. Qed.

Lemma fle_not_nan_l (x y : fl) : fle x y -> x <> NaN.
Proof. destruct x, y; unfold fle; simpl; congruence. Qed.

Lemma fle_not_nan_r (x y : fl) : fle x y -> y <> NaN.
Proof. destruct x, y; unfold fle; simpl; congruence. Qed.

Lemma fle_refl (x : fl) : x <> NaN -> fle x x.
Proof. destruct x; simpl; intros; fl_cases. Qed.

Lemma ffmin_le_l (a y : fl) : a <> NaN -> fle (ffmin a y) a.
Proof. destruct a, y; simpl; intros; fl_cases. Qed.

Lemma ffmin_le_r (a y : fl) : y <> NaN -> fle (ffmin a y) y.
Proof. destruct a, y; simpl; intros; fl_cases. Qed.

Lemma ffmax_ge_l (a y : fl) : a <> NaN -> fle a (ffmax a y).
Proof. destruct a, y; simpl; intros; fl_cases. Qed.

Lemma ffmax_ge_r (a y : fl) : y <> NaN -> fle y (ffmax a y).
Proof. destruct a, y; simpl; intros; fl_cases. Qed.

Lemma fold_ffmin_le_init (t : list fl) (a : fl) :
  a <> NaN -> fle (fold_left ffmin t a) a.
Proof.
  revert a; induction t as [|y t IH]; intros a Ha; simpl.
  - now apply fle_refl.
  - apply fle_trans with (ffmin a y).
    + apply IH. eapply fle_not_nan_l, ffmin_le_l; eassumption.
    + now apply ffmin_le_l.
Qed.

Lemma fold_ffmin_le_elem (t : list fl) (a y : fl) :
  In y t -> y <> NaN -> fle (fold_left ffmin t a) y.
Proof.
  revert a; induction t as [|z t IH]; intros a Hin Hy; simpl in *; [tauto|].
  destruct Hin as [->|Hin]; [|now apply IH].
  apply fle_trans with (ffmin a y).
  - apply fold_ffmin_le_init. eapply fle_not_nan_l, ffmin_le_r; eassumption.
  - now apply ffmin_le_r.
Qed.

Lemma fold_ffmax_ge_init (t : list fl) (a : fl) :
  a <> NaN -> fle a (fold_left ffmax t a).
Proof.
  revert a; induction t as [|y t IH]; intros a Ha; simpl.
  - now apply fle_refl.
  - apply fle_trans with (ffmax a y).
    + now apply ffmax_ge_l.
    + apply IH. eapply fle_not_nan_r, ffmax_ge_l; eassumption.
Qed.

Lemma fold_ffmax_ge_elem (t : list fl) (a y : fl) :
  In y t -> y <> NaN -> fle y (fold_left ffmax t a).
Proof.
  revert a; induction t as [|z t IH]; intros a Hin Hy; simpl in *; [tauto|].
  destruct Hin as [->|Hin]; [|now apply IH].
  apply fle_trans with (ffmax a y).
  - now apply ffmax_ge_r.
  - apply fold_ffmax_ge_init. eapply fle_not_nan_r, ffmax_ge_r; eassumption.
Qed.

(** [np.nanmin] of an array is below each of its non-NaN entries. *)
Lemma nanmin_lower_bound (a : list fl) (y : fl) :
  In y a -> y <> NaN ->
  exists lo, Np.nanmin a = Ok lo /\ fle lo y.
Proof.
  destruct a as [|x t]; simpl; [tauto|].
  intros [->|Hin] Hy; eexists; split; try reflexivity.
  - now apply fold_ffmin_le_init.
  - now apply fold_ffmin_le_elem.
Qed.

Lemma nanmax_upper_bound (a : list fl) (y : fl) :
  In y a -> y <> NaN ->
  exists hi, Np.nanmax a = Ok hi /\ fle y hi.
Proof.
  destruct a as [|x t]; simpl; [tauto|].
  intros [->|Hin] Hy; eexists; split; try reflexivity.
  - now apply fold_ffmax_ge_init.
  - now apply fold_ffmax_ge_elem.
Qed.

Lemma unit_quotient (x a b : R) :
  a <= x <= b -> a < b -> 0 <= (x + - a) / (b + - a) <= 1.
Proof.
  intros [H1 H2] Hab.
  assert (Hd : 0 < b + - a) by lra.
  split.
  - apply Rmult_le_pos; [lra|]. left. now apply Rinv_0_lt_compat.
  - apply Rmult_le_reg_r with (b + - a); [assumption|].
    unfold Rdiv. rewrite Rmult_assoc, Rinv_l by lra. lra.
Qed.

(** The renormalisation step alone: on any array with two distinct finite
    values it returns an array, of the same shape, whose finite entries
    lie in [[0,1]]. *)
Lemma normalize_unit (s : ndarray) :
  two_distinct_finite (flat s) ->
  exists out, normalize s = Ok out /\ shape out = shape s /\
    length (flat out) = length (flat s) /\
    Forall (fun x => isfinite x = true -> in_unit x) (flat out).
Proof.
  intros (u & v & Hu & Hv & Huv).
  destruct (nanmin_lower_bound _ _ Hu) as (lo & Elo & Hlou); [discriminate|].
  destruct (nanmin_lower_bound _ _ Hv) as (lo2 & Elo2 & Hlov); [discriminate|].
  destruct (nanmax_upper_bound _ _ Hu) as (hi & Ehi & Hhiu); [discriminate|].
  destruct (nanmax_upper_bound _ _ Hv) as (hi2 & Ehi2 & Hhiv); [discriminate|].
  rewrite Elo in Elo2; injection Elo2 as <-.
  rewrite Ehi in Ehi2; injection Ehi2 as <-.
  unfold normalize. rewrite Elo, Ehi. simpl.
  eexists; split; [reflexivity|]. simpl.
  split; [reflexivity|]. split; [apply length_map|].
  apply Forall_forall. intros y Hy.
  apply in_map_iff in Hy as (x & <- & Hx).
  destruct x as [x| | |].
  - destruct (nanmin_lower_bound _ _ Hx) as (lo2 & Elo2 & Hlox); [discriminate|].
    destruct (nanmax_upper_bound _ _ Hx) as (hi2 & Ehi2 & Hhix); [discriminate|].
    rewrite Elo in Elo2; injection Elo2 as <-.
    rewrite Ehi in Ehi2; injection Ehi2 as <-.
    destruct lo as [a| | |], hi as [b| | |]; simpl; unfold fle in *; simpl in *;
      try discriminate; intros _; unfold in_unit, fle; simpl.
    + apply Rleb_true in Hlou, Hlov, Hhiu, Hhiv, Hlox, Hhix.
      assert (a < b) by lra.
      destruct (Req_dec_T (b + - a) 0); [lra|].
      simpl. rewrite !Rleb_true. apply unit_quotient; lra.
    + rewrite !Rleb_true. lra.
  - destruct lo, hi; simpl; try discriminate; rdec; simpl; discriminate.
  - destruct lo, hi; simpl; try discriminate; rdec; simpl; discriminate.
  - destruct lo, hi; simpl; discriminate.
Qed.

Lemma clip_unit_fin (r : R) :
  0 <= r <= 1 -> Np.clip (Fin r) (Fin 0) (Fin 1) = Fin r.
Proof.
  intros [H0 H1]. unfold Np.clip, fmaximum, fminimum, fleb, Rleb.
  destruct (Rle_dec r 0).
  - assert (r = 0) by lra; subst. rdec. reflexivity.
  - rdec. reflexivity.
Qed.

(** The spec's own example for linear scaling, here with the bounds taken
    from the data: pixels 0, 5, 10 go to 0, 1/2, 1, in any shape. *)
Lemma linear_scaling_0_5_10_shape (sh : list nat) :
  linear_scaling {| shape := sh; flat := [Fin 0; Fin 5; Fin 10] |} None None =
  Ok {| shape := sh; flat := [Fin 0; Fin (1 / 2); Fin 1] |}.
Proof.
  unfold linear_scaling, extrema_range, amap; simpl.
  unfold fsub, ffmin, ffmax, fleb, Rleb; simpl. rdec. simpl. rdec.
  replace ((0 + - 0) / (10 + - 0)) with 0 by field.
  replace ((5 + - 0) / (10 + - 0)) with (1 / 2) by field.
  replace ((10 + - 0) / (10 + - 0)) with 1 by field.
  rewrite !clip_unit_fin by lra. reflexivity.
Qed.

Lemma linear_scaling_0_5_10 :
  linear_scaling img_0_5_10 None None =
  Ok {| shape := [1%nat; 3%nat]; flat := [Fin 0; Fin (1 / 2); Fin 1] |}.
Proof. apply linear_scaling_0_5_10_shape. Qed.

(** Renormalising an array that already spans exactly [[0,1]] changes
    nothing. *)
Lemma normalize_0_half_1 (sh : list nat) :
  normalize {| shape := sh; flat := [Fin 0; Fin (1 / 2); Fin 1] |} =
  Ok {| shape := sh; flat := [Fin 0; Fin (1 / 2); Fin 1] |}.
Proof.
  unfold normalize, amap; simpl.
  unfold fsub, ffmin, ffmax, fleb, Rleb; simpl. rdec. simpl. rdec.
  replace ((0 + - 0) / (1 + - 0)) with 0 by field.
  replace ((1 / 2 + - 0) / (1 + - 0)) with (1 / 2) by field.
  replace ((1 + - 0) / (1 + - 0)) with 1 by field.
  reflexivity.
Qed.

(* ================================================================= *)
(** ** C1: the pipeline's output lies in [[0,1]] *)

(** C1.  Whatever the method ([linear], [log], [sqrt], [hist_eq], [asinh])
    and its parameters: when the selected scaling function returns an array
    that holds two distinct finite values, [process_fits] returns an array
    (it does not raise), of the same shape, and every finite entry of it
    lies in [[0,1]]. *)
Theorem C1_process_fits_unit_range
    (data plane res : ndarray) (scaling_method : string) (frame : Z)
    (kw : kwargs) :
  In scaling_method methods ->
  select_frame data frame = Ok plane ->
  apply_scaling plane scaling_method kw = Ok res ->
  two_distinct_finite (flat res) ->
  exists out,
    process_fits data scaling_method frame kw = Ok out /\
    shape out = shape res /\
    Forall (fun x => isfinite x = true -> in_unit x) (flat out).
Proof.
  intros _ Hsel Hscale Hfin.
  destruct (normalize_unit res Hfin) as (out & Hn & Hsh & _ & Hall).
  exists out. unfold process_fits. rewrite Hsel; simpl. rewrite Hscale; simpl.
  auto.
Qed.

Lemma C1_witness :
  exists out,
    process_fits img_0_5_10 "linear" 0 no_kwargs = Ok out /\
    shape out = [1%nat; 3%nat] /\
    Forall (fun x => isfinite x = true -> in_unit x) (flat out).
Proof.
  apply (C1_process_fits_unit_range img_0_5_10 img_0_5_10
           {| shape := [1%nat; 3%nat]; flat := [Fin 0; Fin (1 / 2); Fin 1] |}
           "linear" 0 no_kwargs).
  - simpl; tauto.
  - reflexivity.
  - exact linear_scaling_0_5_10.
  - exists 0, 1. simpl. repeat split; auto; lra.
Defined.

(* ================================================================= *)
(** ** C3: the asinh example *)

Lemma arcsinh_pos (x : R) : 0 < x -> 0 < arcsinh x.
Proof. intros H. rewrite <- arcsinh_0. now apply arcsinh_lt. Qed.

Lemma sqrt2_gt_1 : 1 < sqrt 2.
Proof. rewrite <- sqrt_1 at 1. apply sqrt_lt_1; lra. Qed.

Lemma sqrt5_lt_3 : sqrt 5 < 3.
Proof.
  assert (H : sqrt (3 * 3) = 3) by (apply sqrt_square; lra).
  rewrite <- H. apply sqrt_lt_1; lra.
Qed.

Lemma arcsinh_1 : arcsinh 1 = ln (1 + sqrt 2).
Proof. unfold arcsinh. do 2 f_equal. f_equal. lra. Qed.

Lemma arcsinh_2 : arcsinh 2 = ln (2 + sqrt 5).
Proof. unfold arcsinh. do 2 f_equal. f_equal. lra. Qed.

(** Twice [arcsinh 1] exceeds [arcsinh 2]: [(1 + sqrt 2)^2 = 3 + 2 sqrt 2]
    is larger than [2 + sqrt 5]. *)
Lemma arcsinh_2_lt_double : arcsinh 2 < 2 * arcsinh 1.
Proof.
  rewrite arcsinh_1, arcsinh_2.
  pose proof sqrt2_gt_1 as H2. pose proof sqrt5_lt_3 as H5.
  assert (Hs : sqrt 2 * sqrt 2 = 2) by (apply sqrt_sqrt; lra).
  replace (2 * ln (1 + sqrt 2)) with (ln ((1 + sqrt 2) * (1 + sqrt 2))).
  - apply ln_increasing.
    + pose proof (sqrt_pos 5). lra.
    + nra.
  - rewrite ln_mult by lra. lra.
Qed.

Lemma asinh_midpoint_bounds : 1 / 2 < arcsinh 1 / arcsinh 2 < 1.
Proof.
  assert (H2 : 0 < arcsinh 2) by (apply arcsinh_pos; lra).
  assert (H12 : arcsinh 1 < arcsinh 2) by (apply arcsinh_lt; lra).
  pose proof arcsinh_2_lt_double as Hd.
  split.
  - apply Rmult_lt_reg_r with (arcsinh 2); [assumption|].
    unfold Rdiv at 2. rewrite Rmult_assoc, Rinv_l by lra. lra.
  - apply Rmult_lt_reg_r with (arcsinh 2); [assumption|].
    unfold Rdiv. rewrite Rmult_assoc, Rinv_l by lra. lra.
Qed.

Lemma asinh_scaling_m1_0_1 :
  asinh_scaling arr_m1_0_1 (Some (Fin (-1))) (Some (Fin 1)) (Fin 1) =
  Ok {| shape := [3%nat];
        flat := [Fin 0; Fin (arcsinh 1 / arcsinh 2); Fin 1] |}.
Proof.
  assert (H2 : 0 < arcsinh 2) by (apply arcsinh_pos; lra).
  unfold asinh_scaling, extrema_range, arr_m1_0_1, amap; simpl.
  unfold fsub; simpl.
  destruct (Req_dec_T 1 0) as [E|_]; [lra|]. simpl.
  replace ((1 + - -1) / 1) with 2 by field.
  replace ((-1 + - -1) / 1) with 0 by field.
  replace ((0 + - -1) / 1) with 1 by field.
  destruct (Req_dec_T (arcsinh 2) 0) as [E|_]; [lra|].
  rewrite arcsinh_0.
  replace (0 / arcsinh 2) with 0 by (field; lra).
  replace (arcsinh 2 / arcsinh 2) with 1 by (field; lra).
  unfold Reqb. destruct (Req_dec_T 1 0) as [E|_]; [lra|].
  reflexivity.
Qed.

(** C3 (as stated, refuted).  On [[-1, 0, 1]] with [scale_min = -1],
    [scale_max = 1], [non_linear = 1.0], the middle entry of the result of
    [asinh_scaling] is not 0.5. *)
Lemma C3_counterexample :
  ~ exists out,
      asinh_scaling arr_m1_0_1 (Some (Fin (-1))) (Some (Fin 1)) (Fin 1)
        = Ok out /\
      nth 1 (flat out) NaN = Fin (1 / 2).
Proof.
  intros (out & Hout & Hmid).
  rewrite asinh_scaling_m1_0_1 in Hout. injection Hout as <-.
  simpl in Hmid. injection Hmid as Hmid.
  pose proof asinh_midpoint_bounds. lra.
Qed.

(** C3 (amended).  On [[-1, 0, 1]] with [scale_min = -1], [scale_max = 1],
    [non_linear = 1.0], [asinh_scaling] returns
    [[0, arcsinh 1 / arcsinh 2, 1]]: the middle entry 0 is mapped to
    [arcsinh ((0 - scale_min) / non_linear) /
     arcsinh ((scale_max - scale_min) / non_linear) = arcsinh 1 / arcsinh 2],
    which lies strictly between 0.5 and 1 (about 0.61). *)
Theorem C3_asinh_example :
  asinh_scaling arr_m1_0_1 (Some (Fin (-1))) (Some (Fin 1)) (Fin 1) =
    Ok {| shape := [3%nat];
          flat := [Fin 0; Fin (arcsinh 1 / arcsinh 2); Fin 1] |} /\
  arcsinh ((0 - -1) / 1) / arcsinh ((1 - -1) / 1) = arcsinh 1 / arcsinh 2 /\
  1 / 2 < arcsinh 1 / arcsinh 2 < 1.
Proof.
  split; [exact asinh_scaling_m1_0_1|]. split; [|exact asinh_midpoint_bounds].
  replace ((0 - -1) / 1) with 1 by field.
  replace ((1 - -1) / 1) with 2 by field. reflexivity.
Qed.

(* ================================================================= *)
(** ** C4: keyword arguments a method does not accept *)

Lemma mem_string_In (k : string) (l : list string) :
  mem_string k l = true <-> In k l.
Proof.
  unfold mem_string. rewrite existsb_exists. split.
  - intros (x & Hx & E). apply String.eqb_eq in E. now subst.
  - intros H. exists k. split; [assumption|apply String.eqb_refl].
Qed.

Lemma bind_kwargs_mismatch (acc : list string) (kw : kwargs) (k : string) :
  In k (keys kw) -> ~ In k acc ->
  exists k', bind_kwargs acc kw = Raise (TypeError_unexpected_keyword k') /\
             In k' (keys kw) /\ ~ In k' acc.
Proof.
  intros Hk Hacc. unfold bind_kwargs.
  destruct (find _ (keys kw)) as [k'|] eqn:E.
  - apply find_some in E as [Hin Hf]. exists k'. repeat split; auto.
    intros Hin'. apply mem_string_In in Hin'. rewrite Hin' in Hf. discriminate.
  - apply (find_none _ _ E) in Hk.
    apply negb_false_iff, mem_string_In in Hk. contradiction.
Qed.

Lemma bind_kwargs_ok (acc : list string) (kw : kwargs) :
  (forall k, In k (keys kw) -> In k acc) -> bind_kwargs acc kw = Ok tt.
Proof.
  intros H. unfold bind_kwargs.
  destruct (find _ (keys kw)) as [k'|] eqn:E; [|reflexivity].
  apply find_some in E as [Hin Hf]. apply H, mem_string_In in Hin.
  rewrite Hin in Hf. discriminate.
Qed.

(** C4.  For each of the five method names: when the keyword arguments
    hold a key the selected method does not accept, the dispatch raises
    TypeError naming such a key, whatever the array is (the scaling
    function's body is not entered), and [process_fits] returns no array:
    after a successful frame selection it raises that same TypeError. *)
Theorem C4_unaccepted_keyword_raises
    (scaling_method : string) (kw : kwargs) (k : string) :
  In scaling_method methods ->
  In k (keys kw) ->
  ~ In k (accepted scaling_method) ->
  exists k',
    In k' (keys kw) /\ ~ In k' (accepted scaling_method) /\
    (forall data,
        apply_scaling data scaling_method kw
          = Raise (TypeError_unexpected_keyword k')) /\
    (forall data frame plane,
        select_frame data frame = Ok plane ->
        process_fits data scaling_method frame kw
          = Raise (TypeError_unexpected_keyword k')) /\
    (forall data frame, is_raise (process_fits data scaling_method frame kw)).
Proof.
  intros Hm Hk Hacc.
  destruct (bind_kwargs_mismatch _ _ _ Hk Hacc) as (k' & Hb & Hk' & Hacc').
  exists k'. split; [assumption|]. split; [assumption|].
  assert (Hdisp : forall data, apply_scaling data scaling_method kw
                               = Raise (TypeError_unexpected_keyword k')).
  { intros data. unfold apply_scaling.
    simpl in Hm.
    destruct Hm as [<-|[<-|[<-|[<-|[<-|[]]]]]]; simpl; simpl in Hb;
      rewrite Hb; reflexivity. }
  split; [assumption|]. split.
  - intros data frame plane Hsel. unfold process_fits.
    rewrite Hsel; simpl. rewrite Hdisp. reflexivity.
  - intros data frame. unfold process_fits.
    destruct (select_frame data frame) as [plane|e]; simpl; [|exact I].
    rewrite Hdisp. exact I.
Qed.

Lemma C4_witness :
  exists k',
    In k' (keys kw_percentiles_only) /\ ~ In k' (accepted "linear") /\
    (forall data,
        apply_scaling data "linear" kw_percentiles_only
          = Raise (TypeError_unexpected_keyword k')) /\
    (forall data frame plane,
        select_frame data frame = Ok plane ->
        process_fits data "linear" frame kw_percentiles_only
          = Raise (TypeError_unexpected_keyword k')) /\
    (forall data frame,
        is_raise (process_fits data "linear" frame kw_percentiles_only)).
Proof.
  apply (C4_unaccepted_keyword_raises "linear" kw_percentiles_only
           "percentiles").
  - simpl; tauto.
  - simpl; tauto.
  - simpl. intros [H|[H|[]]]; discriminate.
Defined.

(* ================================================================= *)
(** ** C5: frame selection and the rank of the input *)

Lemma process_fits_1d_0_5_10 :
  process_fits arr1d_0_5_10 "linear" 0 no_kwargs =
  Ok {| shape := [3%nat]; flat := [Fin 0; Fin (1 / 2); Fin 1] |}.
Proof.
  assert (Hsel : select_frame arr1d_0_5_10 0 = Ok arr1d_0_5_10)
    by reflexivity.
  assert (Hdisp : apply_scaling arr1d_0_5_10 "linear" no_kwargs =
                  linear_scaling arr1d_0_5_10 None None) by reflexivity.
  unfold process_fits. rewrite Hsel. cbn [bind]. rewrite Hdisp.
  unfold arr1d_0_5_10. rewrite linear_scaling_0_5_10_shape. cbn [bind].
  apply normalize_0_half_1.
Qed.

(** C5 (as stated, refuted).  A one-dimensional array is not rejected:
    [process_fits] scales it and returns the scaled array. *)
Lemma C5_counterexample :
  ndim arr1d_0_5_10 = 1%nat /\
  ~ is_raise (process_fits arr1d_0_5_10 "linear" 0 no_kwargs).
Proof.
  split; [reflexivity|]. rewrite process_fits_1d_0_5_10. simpl. tauto.
Qed.

(** C5 (amended).  [process_fits] has no rank check.  An array whose number
    of dimensions is not 3 (2D, but also 1D or 4D) is passed unchanged to
    the scaling function; a 3D array of shape [(d0, d1, d2)] has the plane
    at [frame] along axis 0 extracted: the result has shape [(d1, d2)] and
    its entry [(j, k)] is the cube's entry [(frame, j, k)]. *)
Theorem C5_frame_selection (data : ndarray) (frame : Z) :
  (ndim data <> 3%nat ->
   select_frame data frame = Ok data /\
   forall scaling_method kw,
     process_fits data scaling_method frame kw =
     (scaled_data <- apply_scaling data scaling_method kw;;
      normalize scaled_data)) /\
  (forall d0 d1 d2 : nat,
     shape data = [d0; d1; d2] ->
     wf_ndarray data ->
     (0 <= frame < Z.of_nat d0)%Z ->
     exists plane,
       select_frame data frame = Ok plane /\
       shape plane = [d1; d2] /\
       length (flat plane) = (d1 * d2)%nat /\
       forall j k, (j < d1)%nat -> (k < d2)%nat ->
         nth (j * d2 + k) (flat plane) NaN =
         nth (Z.to_nat frame * (d1 * d2) + j * d2 + k) (flat data) NaN).
Proof.
  split.
  - intros Hnd.
    assert (Hsel : select_frame data frame = Ok data).
    { unfold select_frame. apply Nat.eqb_neq in Hnd. now rewrite Hnd. }
    split; [assumption|]. intros m kw. unfold process_fits.
    rewrite Hsel. reflexivity.
  - intros d0 d1 d2 Hsh Hwf Hfr.
    unfold select_frame, ndim, index_axis0. rewrite Hsh. simpl.
    assert (Hneg : (frame <? 0)%Z = false) by (apply Z.ltb_ge; lia).
    rewrite Hneg.
    assert (Hin : ((0 <=? frame) && (frame <? Z.of_nat d0))%Z = true).
    { apply andb_true_iff. split; [apply Z.leb_le|apply Z.ltb_lt]; lia. }
    rewrite Hin. eexists. split; [reflexivity|]. simpl.
    split; [reflexivity|].
    replace (d1 * (d2 * 1))%nat with (d1 * d2)%nat by lia.
    unfold wf_ndarray in Hwf. rewrite Hsh in Hwf. simpl in Hwf.
    assert (Hf : (Z.to_nat frame < d0)%nat) by lia.
    split.
    + rewrite length_firstn, length_skipn. nia.
    + intros j k Hj Hk. rewrite nth_firstn.
      assert (Hlt : (j * d2 + k <? d1 * d2)%nat = true)
        by (apply Nat.ltb_lt; nia).
      rewrite Hlt, nth_skipn. f_equal. lia.
Qed.

Lemma C5_witness :
  select_frame arr1d_0_5_10 0 = Ok arr1d_0_5_10 /\
  exists plane,
    select_frame cube_2_1_2 1 = Ok plane /\
    shape plane = [1%nat; 2%nat] /\
    length (flat plane) = (1 * 2)%nat /\
    forall j k, (j < 1)%nat -> (k < 2)%nat ->
      nth (j * 2 + k) (flat plane) NaN =
      nth (Z.to_nat 1 * (1 * 2) + j * 2 + k) (flat cube_2_1_2) NaN.
Proof.
  split.
  - apply (proj1 (C5_frame_selection arr1d_0_5_10 0)). cbv. lia.
  - apply (proj2 (C5_frame_selection cube_2_1_2 1) 2%nat 1%nat 2%nat).
    + reflexivity.
    + reflexivity.
    + lia.
Defined.

(* ================================================================= *)
(** ** C6: arrays without a finite entry *)

Lemma select_finite_none (a : list fl) :
  Forall (fun x => isfinite x = false) a -> Np.select_finite a = [].
Proof.
  unfold Np.select_finite. induction 1 as [|x t Hx _ IH]; simpl; [reflexivity|].
  now rewrite Hx.
Qed.

Lemma extrema_range_empty (a : list fl) (scale_min scale_max : option fl) :
  Forall (fun x => isfinite x = false) a ->
  scale_min = None \/ scale_max = None ->
  extrema_range a scale_min scale_max = Raise ValueError_zero_size_reduction.
Proof.
  intros Ha Hnone. unfold extrema_range. rewrite (select_finite_none a Ha).
  destruct scale_min, scale_max; simpl; try reflexivity.
  destruct Hnone; discriminate.
Qed.

Lemma default_percentiles_valid :
  Np.percentile_is_valid (fst default_percentiles) &&
  Np.percentile_is_valid (snd default_percentiles) = true.
Proof. simpl. unfold Rleb. rdec; reflexivity. Qed.

Lemma percentile_range_empty (a : list fl) (scale_min scale_max : option fl)
    (percentiles : fl * fl) :
  Forall (fun x => isfinite x = false) a ->
  scale_min = None \/ scale_max = None ->
  percentile_range a scale_min scale_max percentiles =
    Raise (if Np.percentile_is_valid (fst percentiles) &&
              Np.percentile_is_valid (snd percentiles)
           then IndexError_out_of_bounds else ValueError_percentile_range).
Proof.
  intros Ha Hnone. unfold percentile_range, Np.percentile.
  rewrite (select_finite_none a Ha). simpl.
  destruct scale_min, scale_max;
    try (destruct Hnone; discriminate);
    destruct (_ && _); reflexivity.
Qed.

(** C6.  On an array with no finite entry the four functions have no
    empty-data check of their own.  As soon as one bound is missing (not
    supplied by the caller) they raise whatever numpy raises on the empty
    selection: [linear_scaling], [log_scaling] and [asinh_scaling] raise
    numpy's ValueError for the reduction of an empty array, [sqrt_scaling]
    raises the IndexError of [np.percentile] on an empty array (or, with
    percentiles outside [[0,100]], the ValueError that reports them); no
    bounds and no array are returned.  With both bounds supplied nothing
    is derived from the data and nothing is raised for its sake:
    [linear_scaling], [log_scaling] and [sqrt_scaling] return an array,
    and so does [asinh_scaling] unless [non_linear] is zero, which raises
    Python's ZeroDivisionError. *)
Theorem C6_empty_data_raises
    (data : ndarray) (scale_min scale_max : option fl) (lo hi : fl)
    (non_linear : fl) (percentiles : fl * fl) :
  Forall (fun x => isfinite x = false) (flat data) ->
  (scale_min = None \/ scale_max = None ->
   linear_scaling data scale_min scale_max
     = Raise ValueError_zero_size_reduction /\
   log_scaling data scale_min scale_max
     = Raise ValueError_zero_size_reduction /\
   asinh_scaling data scale_min scale_max non_linear
     = Raise ValueError_zero_size_reduction /\
   sqrt_scaling data scale_min scale_max percentiles
     = Raise (if Np.percentile_is_valid (fst percentiles) &&
                 Np.percentile_is_valid (snd percentiles)
              then IndexError_out_of_bounds
              else ValueError_percentile_range) /\
   sqrt_scaling data scale_min scale_max default_percentiles
     = Raise IndexError_out_of_bounds) /\
  (exists out, linear_scaling data (Some lo) (Some hi) = Ok out) /\
  (exists out, log_scaling data (Some lo) (Some hi) = Ok out) /\
  (exists out, sqrt_scaling data (Some lo) (Some hi) percentiles = Ok out) /\
  (is_zero non_linear = false ->
   exists out, asinh_scaling data (Some lo) (Some hi) non_linear = Ok out) /\
  (is_zero non_linear = true ->
   asinh_scaling data (Some lo) (Some hi) non_linear
     = Raise ZeroDivisionError).
Proof.
  intros Ha. split; [|split; [|split; [|split; [|split]]]].
  - intros Hnone.
    unfold linear_scaling, log_scaling, asinh_scaling, sqrt_scaling.
    rewrite (extrema_range_empty _ _ _ Ha Hnone).
    rewrite !(percentile_range_empty _ _ _ _ Ha Hnone).
    rewrite default_percentiles_valid. cbn [bind]. repeat split.
  - unfold linear_scaling, extrema_range. cbn [bind fst snd].
    eexists. reflexivity.
  - unfold log_scaling, extrema_range. cbn [bind fst snd].
    eexists. reflexivity.
  - unfold sqrt_scaling, percentile_range. cbn [bind fst snd].
    eexists. reflexivity.
  - intros Hz. unfold asinh_scaling, extrema_range. cbn [bind fst snd].
    rewrite Hz. cbn [andb]. eexists. reflexivity.
  - intros Hz. unfold asinh_scaling, extrema_range. cbn [bind fst snd].
    rewrite Hz. reflexivity.
Qed.

Lemma C6_witness :
  (linear_scaling img_nan_inf None None
     = Raise ValueError_zero_size_reduction /\
   log_scaling img_nan_inf None None
     = Raise ValueError_zero_size_reduction /\
   asinh_scaling img_nan_inf None None default_non_linear
     = Raise ValueError_zero_size_reduction /\
   sqrt_scaling img_nan_inf None None default_percentiles
     = Raise (if Np.percentile_is_valid (fst default_percentiles) &&
                 Np.percentile_is_valid (snd default_percentiles)
              then IndexError_out_of_bounds
              else ValueError_percentile_range) /\
   sqrt_scaling img_nan_inf None None default_percentiles
     = Raise IndexError_out_of_bounds) /\
  (exists out,
     linear_scaling img_nan_inf (Some (Fin 0)) (Some (Fin 1)) = Ok out) /\
  (exists out,
     log_scaling img_nan_inf (Some (Fin 0)) (Some (Fin 1)) = Ok out) /\
  (exists out,
     sqrt_scaling img_nan_inf (Some (Fin 0)) (Some (Fin 1))
       default_percentiles = Ok out) /\
  (is_zero default_non_linear = false ->
   exists out,
     asinh_scaling img_nan_inf (Some (Fin 0)) (Some (Fin 1))
       default_non_linear = Ok out) /\
  (is_zero default_non_linear = true ->
   asinh_scaling img_nan_inf (Some (Fin 0)) (Some (Fin 1))
     default_non_linear = Raise ZeroDivisionError).
Proof.
  assert (Hnf : Forall (fun x => isfinite x = false) (flat img_nan_inf))
    by (simpl; repeat constructor).
  destruct (C6_empty_data_raises img_nan_inf None None (Fin 0) (Fin 1)
              default_non_linear default_percentiles Hnf) as [Hraise Hok].
  split; [apply Hraise; now left | exact Hok].
Defined.

(** The claim as the specification words it fails twice.  The image
    [[NaN, +inf]] has no finite pixel, yet [linear_scaling] with both
    bounds supplied raises nothing and returns [[NaN, 1]].  And where an
    exception is raised it is not an empty-data error: through
    [process_fits] the [sqrt] method on this image ends exactly as a frame
    index out of range does on a sound cube. *)
Lemma C6_counterexample :
  Forall (fun x => isfinite x = false) (flat img_nan_inf) /\
  linear_scaling img_nan_inf (Some (Fin 0)) (Some (Fin 1))
    = Ok {| shape := [1%nat; 2%nat]; flat := [NaN; Fin 1] |} /\
  process_fits img_nan_inf "sqrt" 0 no_kwargs
    = process_fits cube_2_1_2 "sqrt" 2 no_kwargs.
Proof.
  split; [simpl; repeat constructor|]. split.
  - unfold linear_scaling, extrema_range. cbn [bind fst snd].
    unfold amap, img_nan_inf. cbn [shape flat map]. do 3 f_equal.
    unfold fsub, fneg, fadd, fdiv.
    destruct (Rlt_dec (1 + - 0) 0); [lra|]. reflexivity.
  - assert (E : process_fits cube_2_1_2 "sqrt" 2 no_kwargs
                = Raise IndexError_out_of_bounds) by reflexivity.
    rewrite E. unfold process_fits.
    assert (Es : select_frame img_nan_inf 0 = Ok img_nan_inf) by reflexivity.
    rewrite Es. cbn [bind].
    change (apply_scaling img_nan_inf "sqrt" no_kwargs)
      with (sqrt_scaling img_nan_inf None None default_percentiles).
    unfold sqrt_scaling.
    rewrite (percentile_range_empty (flat img_nan_inf) None None
               default_percentiles); [|simpl; repeat constructor|now left].
    rewrite default_percentiles_valid. reflexivity.
Qed.

(* ================================================================= *)
(** ** C7: non-finite entries do not alter the derived range *)

Lemma select_finite_idem (a : list fl) :
  Np.select_finite (Np.select_finite a) = Np.select_finite a.
Proof.
  unfold Np.select_finite. induction a as [|x t IH]; simpl; [reflexivity|].
  destruct (isfinite x) eqn:E; simpl; [rewrite E, IH|]; auto.
Qed.

Lemma select_finite_all (a : list fl) :
  Forall (fun x => isfinite x = true) (Np.select_finite a).
Proof.
  apply Forall_forall. intros x Hx. unfold Np.select_finite in Hx.
  now apply filter_In in Hx.
Qed.

Lemma ffmin_finite (x y : fl) :
  isfinite x = true -> isfinite y = true -> isfinite (ffmin x y) = true.
Proof. destruct x, y; simpl; try discriminate; intros; destruct (Rleb _ _); auto. Qed.

Lemma ffmax_finite (x y : fl) :
  isfinite x = true -> isfinite y = true -> isfinite (ffmax x y) = true.
Proof. destruct x, y; simpl; try discriminate; intros; destruct (Rleb _ _); auto. Qed.

Lemma fold_ffmin_finite (t : list fl) (x : fl) :
  isfinite x = true -> Forall (fun y => isfinite y = true) t ->
  isfinite (fold_left ffmin t x) = true.
Proof.
  intros Hx Ht. revert x Hx. induction Ht as [|y t Hy _ IH]; intros x Hx; simpl.
  - assumption.
  - apply IH. now apply ffmin_finite.
Qed.

Lemma fold_ffmax_finite (t : list fl) (x : fl) :
  isfinite x = true -> Forall (fun y => isfinite y = true) t ->
  isfinite (fold_left ffmax t x) = true.
Proof.
  intros Hx Ht. revert x Hx. induction Ht as [|y t Hy _ IH]; intros x Hx; simpl.
  - assumption.
  - apply IH. now apply ffmax_finite.
Qed.

Lemma select_finite_nonempty (a : list fl) (x : fl) :
  In x a -> isfinite x = true ->
  exists y t, Np.select_finite a = y :: t.
Proof.
  intros Hin Hx.
  assert (H : In x (Np.select_finite a)) by (apply filter_In; auto).
  destruct (Np.select_finite a) as [|y t]; [destruct H|eauto].
Qed.

(** With a finite entry present, the extrema taken when no bound is
    supplied are finite numbers. *)
Lemma extrema_range_finite (a : list fl) (x : fl) :
  In x a -> isfinite x = true ->
  exists lo hi : R, extrema_range a None None = Ok (Fin lo, Fin hi).
Proof.
  intros Hin Hx. unfold extrema_range.
  destruct (select_finite_nonempty a x Hin Hx) as (y & t & E).
  pose proof (select_finite_all a) as Hall. rewrite E in *.
  inversion Hall as [|? ? Hy Ht]; subst. simpl.
  pose proof (fold_ffmin_finite t y Hy Ht) as Hlo.
  pose proof (fold_ffmax_finite t y Hy Ht) as Hhi.
  destruct (fold_left ffmin t y); try discriminate.
  destruct (fold_left ffmax t y); try discriminate. eauto.
Qed.

(** C7.  For an array with at least one finite entry, the bounds derived
    by the extrema rule (linear, log, asinh) and by the percentile rule
    (sqrt) are the same as those derived from the array with its
    non-finite entries removed, whichever bounds the caller supplies; with
    none supplied the extrema are finite numbers. *)
Theorem C7_nonfinite_entries_ignored
    (data : list fl) (x : fl) (scale_min scale_max : option fl)
    (percentiles : fl * fl) :
  In x data -> isfinite x = true ->
  extrema_range data scale_min scale_max
    = extrema_range (Np.select_finite data) scale_min scale_max /\
  percentile_range data scale_min scale_max percentiles
    = percentile_range (Np.select_finite data) scale_min scale_max
        percentiles /\
  exists lo hi : R, extrema_range data None None = Ok (Fin lo, Fin hi).
Proof.
  intros Hin Hx. split; [|split].
  - unfold extrema_range. now rewrite select_finite_idem.
  - unfold percentile_range. now rewrite select_finite_idem.
  - eapply extrema_range_finite; eassumption.
Qed.

Lemma C7_witness :
  extrema_range pixels_mixed None None
    = extrema_range (Np.select_finite pixels_mixed) None None /\
  percentile_range pixels_mixed None None default_percentiles
    = percentile_range (Np.select_finite pixels_mixed) None None
        default_percentiles /\
  exists lo hi : R, extrema_range pixels_mixed None None = Ok (Fin lo, Fin hi).
Proof.
  apply (C7_nonfinite_entries_ignored pixels_mixed (Fin 3) None None
           default_percentiles).
  - simpl; tauto.
  - reflexivity.
Defined.

(* ================================================================= *)
(** ** C2: constant images *)

(** Every scaling method acts entry by entry once its parameters are
    resolved: a returned array is the input mapped through one function. *)
Lemma apply_scaling_pointwise
    (data res : ndarray) (scaling_method : string) (kw : kwargs) :
  apply_scaling data scaling_method kw = Ok res ->
  exists f, res = amap f data.
Proof.
  unfold apply_scaling.
  repeat match goal with
    | |- context [String.eqb scaling_method ?s] =>
        destruct (String.eqb scaling_method s)
    end;
    try discriminate;
    match goal with
    | |- context [bind_kwargs ?a kw] => destruct (bind_kwargs a kw)
    end; simpl; try discriminate;
    unfold asinh_scaling, linear_scaling, log_scaling, sqrt_scaling,
      hist_eq_scaling;
    try match goal with
      | |- context [extrema_range ?a ?b ?c] => destruct (extrema_range a b c)
      | |- context [percentile_range ?a ?b ?c ?d] =>
          destruct (percentile_range a b c d)
      end; simpl; try discriminate;
    try match goal with
      | |- context [if ?c then Raise ZeroDivisionError else _] => destruct c
      end; try discriminate;
    intros H; injection H as <-; eexists; reflexivity.
Qed.

Lemma ffmin_idem (v : fl) : ffmin v v = v.
Proof. destruct v; simpl; auto. destruct (Rleb r r); auto. Qed.

Lemma ffmax_idem (v : fl) : ffmax v v = v.
Proof. destruct v; simpl; auto. destruct (Rleb r r); auto. Qed.

Lemma fold_ffmin_repeat (v : fl) (n : nat) :
  fold_left ffmin (repeat v n) v = v.
Proof. induction n; simpl; [reflexivity|]. now rewrite ffmin_idem. Qed.

Lemma fold_ffmax_repeat (v : fl) (n : nat) :
  fold_left ffmax (repeat v n) v = v.
Proof. induction n; simpl; [reflexivity|]. now rewrite ffmax_idem. Qed.

(** 0/0, inf - inf and NaN all end in NaN. *)
Lemma degenerate_quotient (v : fl) : fdiv (fsub v v) (fsub v v) = NaN.
Proof.
  destruct v; simpl; auto.
  destruct (Req_dec_T (r + - r) 0); [|lra]. rdec. reflexivity.
Qed.

(** The renormalisation of a constant array, whatever the constant, gives
    NaN everywhere. *)
Lemma normalize_constant (s : ndarray) (v : fl) (n : nat) :
  flat s = repeat v (S n) ->
  normalize s = Ok {| shape := shape s; flat := repeat NaN (S n) |}.
Proof.
  intros E. unfold normalize, amap. rewrite E.
  change (repeat v (S n)) with (v :: repeat v n).
  unfold Np.nanmin, Np.nanmax.
  rewrite fold_ffmin_repeat, fold_ffmax_repeat. cbn [bind].
  change (v :: repeat v n) with (repeat v (S n)).
  rewrite map_repeat, degenerate_quotient. reflexivity.
Qed.

(** Anything [process_fits] returns for a constant plane is all NaN. *)
Lemma process_fits_constant
    (data out : ndarray) (v : fl) (n : nat)
    (scaling_method : string) (frame : Z) (kw : kwargs) :
  ndim data <> 3%nat ->
  flat data = repeat v (S n) ->
  process_fits data scaling_method frame kw = Ok out ->
  out = {| shape := shape data; flat := repeat NaN (S n) |}.
Proof.
  intros Hnd E. unfold process_fits, select_frame.
  apply Nat.eqb_neq in Hnd. rewrite Hnd. cbn [bind].
  destruct (apply_scaling data scaling_method kw) as [res|e] eqn:Hs;
    [|discriminate].
  apply apply_scaling_pointwise in Hs as (f & ->). cbn [bind].
  rewrite (normalize_constant (amap f data) (f v) n).
  - simpl. congruence.
  - simpl. rewrite E. apply map_repeat.
Qed.

Lemma reals_select_finite_cons (a : list fl) (x : fl) :
  In x a -> isfinite x = true ->
  exists r t, Np.reals (Np.select_finite a) = r :: t.
Proof.
  intros Hin Hx.
  destruct (select_finite_nonempty a x Hin Hx) as (y & t & E).
  pose proof (select_finite_all a) as Hall. rewrite E in *.
  inversion Hall as [|? ? Hy Ht]; subst.
  destruct y; try discriminate. simpl. eauto.
Qed.

(** With default parameters and a finite pixel present, every method
    returns an array. *)
Lemma apply_scaling_default_ok
    (data : ndarray) (x : fl) (scaling_method : string) :
  In scaling_method methods ->
  In x (flat data) -> isfinite x = true ->
  exists res, apply_scaling data scaling_method no_kwargs = Ok res.
Proof.
  intros Hm Hin Hx.
  destruct (select_finite_nonempty _ x Hin Hx) as (y & t & E).
  destruct (reals_select_finite_cons _ x Hin Hx) as (r & t' & E').
  simpl in Hm.
  destruct Hm as [<-|[<-|[<-|[<-|[<-|[]]]]]]; unfold apply_scaling; simpl;
    unfold linear_scaling, log_scaling, sqrt_scaling, hist_eq_scaling,
      asinh_scaling, extrema_range, percentile_range, Np.percentile;
    try rewrite default_percentiles_valid;
    try rewrite E'; try rewrite E; simpl; eauto.
Qed.

Lemma process_fits_constant_default
    (data : ndarray) (c : R) (n : nat) (scaling_method : string) (frame : Z) :
  In scaling_method methods ->
  ndim data <> 3%nat ->
  flat data = repeat (Fin c) (S n) ->
  process_fits data scaling_method frame no_kwargs =
    Ok {| shape := shape data; flat := repeat NaN (S n) |}.
Proof.
  intros Hm Hnd E.
  destruct (apply_scaling_default_ok data (Fin c) scaling_method Hm)
    as (res & Hres); [rewrite E; now left|reflexivity|].
  destruct (process_fits data scaling_method frame no_kwargs) as [out|e] eqn:Hp.
  - f_equal. eapply process_fits_constant; eassumption.
  - exfalso. revert Hp. unfold process_fits, select_frame.
    apply Nat.eqb_neq in Hnd. rewrite Hnd. cbn [bind]. rewrite Hres.
    cbn [bind].
    apply apply_scaling_pointwise in Hres as (f & ->).
    rewrite (normalize_constant (amap f data) (f (Fin c)) n).
    + discriminate.
    + simpl. rewrite E. apply map_repeat.
Qed.

(** C2 (as stated, refuted).  On the constant image [[5, 5]],
    [process_fits] with the linear method neither raises nor returns a
    defined constant: both output pixels are NaN. *)
Lemma C2_counterexample :
  process_fits img_5_5 "linear" 0 no_kwargs =
    Ok {| shape := [1%nat; 2%nat]; flat := [NaN; NaN] |} /\
  ~ degenerate_policy (process_fits img_5_5 "linear" 0 no_kwargs).
Proof.
  assert (H : process_fits img_5_5 "linear" 0 no_kwargs =
              Ok {| shape := [1%nat; 2%nat]; flat := [NaN; NaN] |}).
  { apply (process_fits_constant_default img_5_5 5 1 "linear" 0).
    - simpl; tauto.
    - cbv; lia.
    - reflexivity. }
  split; [assumption|]. rewrite H.
  intros [[]|(out & c & Hout & Hall)].
  injection Hout as <-. simpl in Hall.
  inversion Hall as [|? ? Hnan _]. discriminate.
Qed.

(** C2 (amended).  For an all-constant finite input (not a cube), each of
    the five methods behaves the same way: with default parameters
    [process_fits] does not raise and returns an array of the input's
    shape whose every entry is NaN, and with any parameters whatever
    array it returns is of that form. *)
Theorem C2_constant_image_all_nan
    (data : ndarray) (c : R) (n : nat) (scaling_method : string) (frame : Z) :
  In scaling_method methods ->
  ndim data <> 3%nat ->
  flat data = repeat (Fin c) (S n) ->
  process_fits data scaling_method frame no_kwargs =
    Ok {| shape := shape data; flat := repeat NaN (S n) |} /\
  forall kw out,
    process_fits data scaling_method frame kw = Ok out ->
    out = {| shape := shape data; flat := repeat NaN (S n) |}.
Proof.
  intros Hm Hnd E. split.
  - now apply process_fits_constant_default with c.
  - intros kw out. now apply process_fits_constant with (Fin c).
Qed.

Lemma C2_witness :
  process_fits img_5_5 "hist_eq" 0 no_kwargs =
    Ok {| shape := shape img_5_5; flat := repeat NaN 2 |} /\
  forall kw out,
    process_fits img_5_5 "hist_eq" 0 kw = Ok out ->
    out = {| shape := shape img_5_5; flat := repeat NaN 2 |}.
Proof.
  apply (C2_constant_image_all_nan img_5_5 5 1 "hist_eq" 0).
  - simpl; tauto.
  - cbv; lia.
  - reflexivity.
Defined.

(* ================================================================= *)
(** ** Piecewise-linear interpolation through sorted samples *)

Lemma floor_index (h : R) :
  0 <= h ->
  INR (Z.to_nat (Zfloor h)) <= h < INR (Z.to_nat (Zfloor h)) + 1.
Proof.
  intros Hh.
  assert (H0 : (0 <= Zfloor h)%Z) by (apply Zfloor_lub; simpl; lra).
  rewrite INR_IZR_INZ, Z2Nat.id by assumption.
  apply Zfloor_bound.
Qed.

Lemma floor_index_le (h1 h2 : R) :
  h1 <= h2 -> (Z.to_nat (Zfloor h1) <= Z.to_nat (Zfloor h2))%nat.
Proof.
  intros H. apply Zfloor_le in H. lia.
Qed.

Lemma floor_index_lt (h : R) (m : nat) :
  0 <= h -> h < INR m -> (Z.to_nat (Zfloor h) < m)%nat.
Proof.
  intros H0 Hm. destruct (floor_index h H0) as [Hlo _].
  apply INR_lt. lra.
Qed.

Lemma lerp_between (a b t : R) :
  a <= b -> 0 <= t <= 1 -> a <= Np.lerp a b t <= b.
Proof. unfold Np.lerp. intros. nra. Qed.

(** Inside the sampled range the interpolant stays between the two
    samples around its argument. *)
Lemma knot_interp_segment (l : list R) (h : R) :
  nondecreasing l -> 0 <= h -> h < INR (length l - 1) ->
  let j := Z.to_nat (Zfloor h) in
  (S j < length l)%nat /\
  knot_interp l h = Np.lerp (nth j l 0) (nth (S j) l 0) (h - INR j) /\
  nth j l 0 <= knot_interp l h <= nth (S j) l 0.
Proof.
  intros Hl H0 Hn j.
  assert (Hj : (j < length l - 1)%nat) by (now apply floor_index_lt).
  destruct (floor_index h H0) as [Hlo Hhi]. fold j in Hlo, Hhi.
  assert (E : knot_interp l h =
              Np.lerp (nth j l 0) (nth (S j) l 0) (h - INR j)).
  { unfold knot_interp. cbv zeta.
    destruct (Rle_dec (INR (length l - 1)) h); [lra|].
    destruct (Rlt_dec h 0); [lra|]. reflexivity. }
  split; [lia|]. split; [assumption|]. rewrite E.
  apply lerp_between; [apply Hl; lia|lra].
Qed.

Lemma knot_interp_right (l : list R) (h : R) :
  INR (length l - 1) <= h -> knot_interp l h = nth (length l - 1) l 0.
Proof.
  intros H. unfold knot_interp. cbv zeta.
  destruct (Rle_dec (INR (length l - 1)) h); [reflexivity|lra].
Qed.

Lemma knot_interp_left (l : list R) (h : R) :
  h < 0 -> knot_interp l h = nth 0 l 0.
Proof.
  intros H. unfold knot_interp. cbv zeta.
  pose proof (pos_INR (length l - 1)).
  destruct (Rle_dec (INR (length l - 1)) h); [lra|].
  destruct (Rlt_dec h 0); [reflexivity|lra].
Qed.

(** The interpolant never leaves the range of the samples. *)
Lemma knot_interp_range (l : list R) (h : R) :
  nondecreasing l -> l <> [] ->
  nth 0 l 0 <= knot_interp l h <= nth (length l - 1) l 0.
Proof.
  intros Hl Hne.
  assert (Hlen : (0 < length l)%nat) by (destruct l; simpl; [congruence|lia]).
  assert (Hends : nth 0 l 0 <= nth (length l - 1) l 0) by (apply Hl; lia).
  destruct (Rle_dec (INR (length l - 1)) h) as [Hr|Hr].
  - rewrite knot_interp_right by assumption. lra.
  - destruct (Rlt_dec h 0) as [Hneg|Hneg].
    + rewrite knot_interp_left by assumption. lra.
    + destruct (knot_interp_segment l h Hl) as (Hj & _ & Hb); try lra.
      pose proof (Hl 0%nat (Z.to_nat (Zfloor h))) as H1.
      pose proof (Hl (S (Z.to_nat (Zfloor h))) (length l - 1)%nat) as H2.
      specialize (H1 ltac:(lia) ltac:(lia)).
      specialize (H2 ltac:(lia) ltac:(lia)). lra.
Qed.

(** The interpolant through non-decreasing samples is non-decreasing. *)
Lemma knot_interp_mono (l : list R) (h1 h2 : R) :
  nondecreasing l -> l <> [] -> h1 <= h2 ->
  knot_interp l h1 <= knot_interp l h2.
Proof.
  intros Hl Hne H12.
  destruct (Rle_dec (INR (length l - 1)) h2) as [Hr2|Hr2].
  { rewrite (knot_interp_right l h2) by assumption.
    now apply knot_interp_range. }
  destruct (Rlt_dec h1 0) as [Hneg1|Hneg1].
  { rewrite (knot_interp_left l h1) by assumption.
    now apply knot_interp_range. }
  destruct (knot_interp_segment l h1 Hl) as (Hj1 & E1 & Hb1); try lra.
  destruct (knot_interp_segment l h2 Hl) as (Hj2 & E2 & Hb2); try lra.
  pose proof (floor_index_le h1 h2 H12) as Hjj.
  set (j1 := Z.to_nat (Zfloor h1)) in *.
  set (j2 := Z.to_nat (Zfloor h2)) in *.
  destruct (Nat.eq_dec j1 j2) as [Ej|Ej].
  - rewrite E1, E2, Ej. unfold Np.lerp.
    assert (Hs : nth j2 l 0 <= nth (S j2) l 0) by (apply Hl; lia).
    nra.
  - assert (Hmid : nth (S j1) l 0 <= nth j2 l 0) by (apply Hl; lia).
    lra.
Qed.

(* ================================================================= *)
(** ** C9: widening the percentile interval *)

Lemma insert_perm (x : R) (l : list R) : Permutation (x :: l) (Np.insert x l).
Proof.
  induction l as [|y t IH]; simpl; [reflexivity|].
  destruct (Rle_dec x y); [reflexivity|].
  rewrite perm_swap. now constructor.
Qed.

Lemma sort_perm (l : list R) : Permutation l (Np.sort l).
Proof.
  induction l as [|x t IH]; simpl; [constructor|].
  rewrite <- insert_perm. now constructor.
Qed.

Lemma insert_sorted (x : R) (l : list R) :
  StronglySorted Rle l -> StronglySorted Rle (Np.insert x l).
Proof.
  induction 1 as [|y t Hs IH Hy]; simpl.
  - repeat constructor.
  - destruct (Rle_dec x y) as [Hxy|Hxy].
    + constructor; [now constructor|].
      constructor; [assumption|].
      eapply Forall_impl; [|exact Hy]. intros z Hz. simpl in Hz. lra.
    + constructor; [assumption|].
      apply (Permutation_Forall (insert_perm x t)).
      constructor; [lra|assumption].
Qed.

Lemma sort_sorted (l : list R) : StronglySorted Rle (Np.sort l).
Proof.
  induction l as [|x t IH]; simpl; [constructor|now apply insert_sorted].
Qed.

Lemma sorted_nondecreasing (l : list R) :
  StronglySorted Rle l -> nondecreasing l.
Proof.
  induction 1 as [|x t Hs IH Hx]; intros i j Hij Hj; simpl in *; [lia|].
  destruct i as [|i], j as [|j]; try lia; try lra.
  - rewrite Forall_forall in Hx. apply Hx, nth_In. lia.
  - apply IH; lia.
Qed.

Lemma sort_length (l : list R) : length (Np.sort l) = length l.
Proof. symmetry. apply Permutation_length, sort_perm. Qed.

Lemma percentile1_knot (a : list R) (q : R) :
  Np.percentile1 a q =
  knot_interp (Np.sort a) (INR (length (Np.sort a) - 1) * (q / 100)).
Proof. reflexivity. Qed.





(* ================================================================= *)
(** ** The histogram and its cumulative sum *)

Lemma in_bin_true (nbins i : nat) (r : R) :
  Np.in_bin nbins i (Fin r) = true <->
  INR i <= r /\ (r < INR (S i) \/ (S i = nbins /\ r = INR nbins)).
Proof.
  unfold Np.in_bin.
  rewrite andb_true_iff, orb_true_iff, andb_true_iff.
  rewrite Rleb_true, Rltb_true, Reqb_true, Nat.eqb_eq. tauto.
Qed.

Lemma in_bin_finite (nbins i : nat) (x : fl) :
  Np.in_bin nbins i x = true -> exists r, x = Fin r.
Proof. destruct x; simpl; try discriminate. eauto. Qed.

(** A value of the closed interval [[0, nbins]] falls in one of the bins. *)
Lemma in_some_bin (nbins : nat) (r : R) :
  0 <= r <= INR nbins -> (0 < nbins)%nat ->
  exists i, (i < nbins)%nat /\ Np.in_bin nbins i (Fin r) = true.
Proof.
  intros [H0 Hn] Hpos.
  destruct (Req_dec_T r (INR nbins)) as [E|E].
  - exists (nbins - 1)%nat. split; [lia|]. apply in_bin_true.
    replace (S (nbins - 1)) with nbins by lia. split; [|now right].
    rewrite E. apply le_INR. lia.
  - exists (Z.to_nat (Zfloor r)). split.
    + apply floor_index_lt; lra.
    + apply in_bin_true. destruct (floor_index r H0) as [Hlo Hhi].
      rewrite S_INR. split; [assumption|now left].
Qed.

(** A value outside [[0, nbins]] falls in no bin. *)
Lemma in_no_bin (nbins i : nat) (r : R) :
  (i < nbins)%nat -> r < 0 \/ INR nbins < r ->
  Np.in_bin nbins i (Fin r) = false.
Proof.
  intros Hi Hout. apply not_true_is_false. intros H.
  apply in_bin_true in H as [Hlo Hhi].
  pose proof (pos_INR i). assert (INR (S i) <= INR nbins) by (apply le_INR; lia).
  destruct Hout; [lra|]. destruct Hhi as [Hhi|[_ Hhi]]; lra.
Qed.

Lemma histogram_length (a : list fl) (nbins : nat) :
  length (Np.histogram a nbins) = nbins.
Proof. unfold Np.histogram. now rewrite length_map, length_seq. Qed.

Lemma histogram_nth (a : list fl) (nbins i : nat) :
  (i < nbins)%nat ->
  nth i (Np.histogram a nbins) 0%nat = length (filter (Np.in_bin nbins i) a).
Proof.
  intros Hi. unfold Np.histogram.
  rewrite nth_indep with (d' := length (filter (Np.in_bin nbins 0) a))
    by (now rewrite length_map, length_seq).
  rewrite (map_nth (fun i => length (filter (Np.in_bin nbins i) a))).
  now rewrite seq_nth.
Qed.

Lemma histogram_pos (a : list fl) (nbins i : nat) (x : fl) :
  (i < nbins)%nat -> In x a -> Np.in_bin nbins i x = true ->
  (0 < nth i (Np.histogram a nbins) 0)%nat.
Proof.
  intros Hi Hin Hb. rewrite histogram_nth by assumption.
  assert (H : In x (filter (Np.in_bin nbins i) a)) by (apply filter_In; auto).
  destruct (filter _ a); [destruct H|simpl; lia].
Qed.

Lemma histogram_zero (a : list fl) (nbins : nat) :
  (forall x i, In x a -> (i < nbins)%nat -> Np.in_bin nbins i x = false) ->
  Np.histogram a nbins = repeat 0%nat nbins.
Proof.
  intros H. apply nth_ext with (d := 0%nat) (d' := 0%nat).
  - now rewrite histogram_length, repeat_length.
  - intros i Hi. rewrite histogram_length in Hi.
    rewrite histogram_nth, nth_repeat by assumption.
    apply length_zero_iff_nil.
    induction a as [|y t IH]; simpl; [reflexivity|].
    rewrite (H y i) by (simpl; auto).
    apply IH. intros x j Hx Hj. apply H; simpl; auto.
Qed.

Lemma list_max_ge_nth (l : list nat) (i : nat) :
  (nth i l 0 <= list_max l)%nat.
Proof.
  destruct (Nat.lt_ge_cases i (length l)) as [Hi|Hi].
  - pose proof (proj1 (list_max_le l (list_max l)) (Nat.le_refl _)) as H.
    rewrite Forall_forall in H. apply H, nth_In, Hi.
  - rewrite nth_overflow by assumption. lia.
Qed.

Lemma cumsum_from_length (l : list nat) (acc : nat) :
  length (Np.cumsum_from acc l) = length l.
Proof. revert acc; induction l; intros; simpl; auto. Qed.

Lemma cumsum_from_ge (l : list nat) (acc i : nat) :
  (i < length l)%nat -> (acc <= nth i (Np.cumsum_from acc l) 0)%nat.
Proof.
  revert acc i; induction l as [|x t IH]; intros acc i Hi; simpl in *; [lia|].
  destruct i as [|i]; [lia|].
  specialize (IH (acc + x)%nat i ltac:(lia)). lia.
Qed.

Lemma cumsum_from_mono (l : list nat) (acc i j : nat) :
  (i <= j)%nat -> (j < length l)%nat ->
  (nth i (Np.cumsum_from acc l) 0 <= nth j (Np.cumsum_from acc l) 0)%nat.
Proof.
  revert acc i j; induction l as [|x t IH]; intros acc i j Hij Hj;
    simpl in *; [lia|].
  destruct i as [|i], j as [|j]; try lia.
  - apply (cumsum_from_ge t (acc + x)). lia.
  - apply IH; lia.
Qed.

Lemma cumsum_from_above (l : list nat) (acc i k : nat) :
  (i <= k)%nat -> (k < length l)%nat ->
  (nth i l 0 <= nth k (Np.cumsum_from acc l) 0)%nat.
Proof.
  revert acc i k; induction l as [|x t IH]; intros acc i k Hik Hk;
    simpl in *; [lia|].
  destruct i as [|i], k as [|k]; try lia.
  - pose proof (cumsum_from_ge t (acc + x) k ltac:(lia)). lia.
  - apply IH; lia.
Qed.

(** The maximum of a cumulative sum is its last entry. *)
Lemma cumsum_max_last (l : list nat) :
  Np.amax (Np.cumsum l) = nth (length l - 1) (Np.cumsum l) 0%nat.
Proof.
  unfold Np.amax, Np.cumsum. apply Nat.le_antisymm.
  - apply list_max_le, Forall_forall. intros c Hc.
    destruct (In_nth _ _ 0%nat Hc) as (i & Hi & <-).
    rewrite cumsum_from_length in Hi.
    apply cumsum_from_mono; lia.
  - apply list_max_ge_nth.
Qed.

Lemma INR_255 : INR 255 = 255.
Proof. rewrite INR_IZR_INZ. reflexivity. Qed.

Lemma INR_256 : INR 256 = 256.
Proof. rewrite INR_IZR_INZ. reflexivity. Qed.

Lemma cumsum_from_zeros (n : nat) :
  Np.cumsum_from 0 (repeat 0%nat n) = repeat 0%nat n.
Proof. induction n; simpl; [reflexivity|]. now rewrite IHn. Qed.

Lemma list_max_zeros (n : nat) : list_max (repeat 0%nat n) = 0%nat.
Proof. induction n; simpl; auto. Qed.

Lemma cumsum_zeros_total (n : nat) :
  Np.amax (Np.cumsum (repeat 0%nat n)) = 0%nat.
Proof.
  unfold Np.amax, Np.cumsum. now rewrite cumsum_from_zeros, list_max_zeros.
Qed.

(** Every entry of the cumulative sum is at most its maximum. *)
Lemma cumsum_le_total (img_hist : list nat) (k : nat) :
  (nth k (Np.cumsum img_hist) 0 <= Np.amax (Np.cumsum img_hist))%nat.
Proof. apply list_max_ge_nth. Qed.

(** Every bin count is at most the total. *)
Lemma count_le_total (img_hist : list nat) (i : nat) :
  (i < length img_hist)%nat ->
  (nth i img_hist 0 <= Np.amax (Np.cumsum img_hist))%nat.
Proof.
  intros Hi.
  pose proof (cumsum_from_above img_hist 0 i i (Nat.le_refl _) Hi) as H1.
  pose proof (cumsum_le_total img_hist i) as H2.
  unfold Np.cumsum in *. lia.
Qed.

(** Some pixel in [[0, 256]] makes the total count positive. *)
Lemma total_pos (a : list fl) (r : R) :
  In (Fin r) a -> 0 <= r <= 256 ->
  (0 < Np.amax (Np.cumsum (Np.histogram a 256)))%nat.
Proof.
  intros Hin Hr.
  destruct (in_some_bin 256 r) as (i & Hi & Hb);
    [rewrite INR_256; assumption|apply Nat.lt_0_succ|].
  pose proof (histogram_pos a 256 i (Fin r) Hi Hin Hb) as Hpos.
  eapply Nat.lt_le_trans; [exact Hpos|].
  apply count_le_total. now rewrite histogram_length.
Qed.

(** No pixel in [[0, 256]] leaves the histogram empty. *)
Lemma total_zero (a : list fl) :
  (forall r, In (Fin r) a -> r < 0 \/ 256 < r) ->
  Np.amax (Np.cumsum (Np.histogram a 256)) = 0%nat.
Proof.
  intros H. rewrite histogram_zero.
  - apply cumsum_zeros_total.
  - intros x i Hx Hi. destruct x as [r| | |]; try reflexivity.
    apply in_no_bin; [assumption|]. rewrite INR_256. now apply H.
Qed.

(* ================================================================= *)
(** ** The lookup curve and its interpolation *)

Lemma cumsum_length (img_hist : list nat) :
  length (Np.cumsum img_hist) = length img_hist.
Proof. apply cumsum_from_length. Qed.

Lemma cdf_normalized_R_length (img_hist : list nat) :
  length (cdf_normalized_R img_hist) = length img_hist.
Proof. unfold cdf_normalized_R. now rewrite length_map, cumsum_length. Qed.

Lemma cdf_normalized_R_nth (img_hist : list nat) (i : nat) :
  (i < length img_hist)%nat ->
  nth i (cdf_normalized_R img_hist) 0 =
  INR (nth i (Np.cumsum img_hist) 0%nat) * INR (Np.amax img_hist)
  / INR (Np.amax (Np.cumsum img_hist)).
Proof.
  intros Hi. unfold cdf_normalized_R. cbv zeta.
  set (g := fun c : nat => INR c * _ / _).
  rewrite nth_indep with (d' := g 0%nat).
  - now rewrite (map_nth g).
  - now rewrite length_map, cumsum_length.
Qed.

(** With a positive total the curve consists of finite numbers. *)
Lemma cdf_normalized_fin (img_hist : list nat) :
  (0 < Np.amax (Np.cumsum img_hist))%nat ->
  cdf_normalized img_hist = map Fin (cdf_normalized_R img_hist).
Proof.
  intros Hpos. unfold cdf_normalized, cdf_normalized_R. cbv zeta.
  rewrite map_map. apply map_ext. intros c.
  apply lt_INR in Hpos. simpl INR in Hpos at 1.
  unfold fmul, fdiv.
  destruct (Req_dec_T (INR (Np.amax (Np.cumsum img_hist))) 0);
    [lra|reflexivity].
Qed.

(** With a zero total every point of the curve is 0/0 = NaN. *)
Lemma cdf_normalized_nan (img_hist : list nat) (i : nat) :
  Np.amax (Np.cumsum img_hist) = 0%nat ->
  nth i (cdf_normalized img_hist) NaN = NaN.
Proof.
  intros Hz.
  destruct (Nat.lt_ge_cases i (length (cdf_normalized img_hist))) as [Hi|Hi];
    [|now apply nth_overflow].
  assert (Hin : In (nth i (cdf_normalized img_hist) NaN)
                   (cdf_normalized img_hist))
    by (now apply nth_In).
  unfold cdf_normalized in Hin at 2. cbv zeta in Hin.
  apply in_map_iff in Hin as (c & Hc & Hcin).
  rewrite <- Hc.
  assert (Hc0 : c = 0%nat).
  { destruct (In_nth _ _ 0%nat Hcin) as (k & _ & <-).
    pose proof (cumsum_le_total img_hist k) as Hle. lia. }
  rewrite Hz, Hc0. simpl INR. unfold fmul, fdiv.
  destruct (Req_dec_T 0 0); [|lra].
  destruct (Rlt_dec 0 (0 * INR (Np.amax img_hist))); [lra|].
  destruct (Rlt_dec (0 * INR (Np.amax img_hist)) 0); [lra|].
  reflexivity.
Qed.

Lemma scaled_count (c peak total : nat) :
  (0 < total)%nat -> (c <= total)%nat ->
  0 <= INR c * INR peak / INR total <= INR peak.
Proof.
  intros Ht Hc. apply lt_INR in Ht. apply le_INR in Hc. simpl INR in Ht at 1.
  pose proof (pos_INR c). pose proof (pos_INR peak).
  assert (Hi : 0 < / INR total) by (now apply Rinv_0_lt_compat).
  unfold Rdiv. split.
  - apply Rmult_le_pos; [apply Rmult_le_pos; assumption|lra].
  - apply Rmult_le_reg_r with (INR total); [assumption|].
    rewrite Rmult_assoc, Rinv_l by lra. nra.
Qed.

Lemma scaled_count_mono (c1 c2 peak total : nat) :
  (0 < total)%nat -> (c1 <= c2)%nat ->
  INR c1 * INR peak / INR total <= INR c2 * INR peak / INR total.
Proof.
  intros Ht Hc. apply lt_INR in Ht. apply le_INR in Hc. simpl INR in Ht at 1.
  pose proof (pos_INR peak).
  assert (Hi : 0 < / INR total) by (now apply Rinv_0_lt_compat).
  unfold Rdiv. apply Rmult_le_compat_r; [lra|]. nra.
Qed.

Lemma cdf_normalized_R_nondecreasing (img_hist : list nat) :
  (0 < Np.amax (Np.cumsum img_hist))%nat ->
  nondecreasing (cdf_normalized_R img_hist).
Proof.
  intros Hpos i j Hij Hj. rewrite cdf_normalized_R_length in Hj.
  rewrite !cdf_normalized_R_nth by lia.
  apply scaled_count_mono; [assumption|].
  apply cumsum_from_mono; assumption.
Qed.

Lemma cdf_normalized_R_bounds (img_hist : list nat) (i : nat) :
  (0 < Np.amax (Np.cumsum img_hist))%nat ->
  (i < length img_hist)%nat ->
  0 <= nth i (cdf_normalized_R img_hist) 0 <= INR (Np.amax img_hist).
Proof.
  intros Hpos Hi. rewrite cdf_normalized_R_nth by assumption.
  apply scaled_count; [assumption|apply cumsum_le_total].
Qed.

(** The curve ends at the peak bin count: its maximum. *)
Lemma cdf_normalized_R_last (img_hist : list nat) :
  (0 < Np.amax (Np.cumsum img_hist))%nat ->
  img_hist <> [] ->
  nth (length img_hist - 1) (cdf_normalized_R img_hist) 0
  = INR (Np.amax img_hist).
Proof.
  intros Hpos Hne.
  assert (Hlen : (0 < length img_hist)%nat)
    by (destruct img_hist; simpl; [congruence|lia]).
  rewrite cdf_normalized_R_nth by lia.
  rewrite <- cumsum_max_last.
  apply lt_INR in Hpos. simpl INR in Hpos at 1. field. lra.
Qed.

Lemma interp_all_nan (fp : list fl) (x : fl) :
  (forall i, nth i fp NaN = NaN) -> Np.interp fp x = NaN.
Proof.
  intros H. unfold Np.interp. cbv zeta. destruct x; rewrite ?H; auto.
  destruct (Rlt_dec _ _); [reflexivity|].
  destruct (Rlt_dec _ _); [reflexivity|].
  destruct (Nat.eqb _ _); [reflexivity|].
  destruct (Req_dec_T _ _); reflexivity.
Qed.

Lemma nth_map_Fin (l : list R) (i : nat) :
  (i < length l)%nat -> nth i (map Fin l) NaN = Fin (nth i l 0).
Proof.
  intros Hi. rewrite nth_indep with (d' := Fin 0) by (now rewrite length_map).
  apply (map_nth Fin).
Qed.

Lemma knot_interp_inside (l : list R) (h : R) :
  0 <= h -> h < INR (length l - 1) ->
  knot_interp l h =
  Np.lerp (nth (Z.to_nat (Zfloor h)) l 0) (nth (S (Z.to_nat (Zfloor h))) l 0)
          (h - INR (Z.to_nat (Zfloor h))).
Proof.
  intros H0 Hn. unfold knot_interp. cbv zeta.
  destruct (Rle_dec (INR (length l - 1)) h); [lra|].
  destruct (Rlt_dec h 0); [lra|]. reflexivity.
Qed.

Lemma floor_index_INR (m : nat) : Z.to_nat (Zfloor (INR m)) = m.
Proof. rewrite INR_IZR_INZ, ZfloorZ. apply Nat2Z.id. Qed.

(** On a curve of finite numbers [np.interp] is the piecewise-linear
    interpolant. *)
Lemma interp_fin (l : list R) (r : R) :
  l <> [] -> Np.interp (map Fin l) (Fin r) = Fin (knot_interp l r).
Proof.
  intros Hne.
  assert (Hlen : (0 < length l)%nat) by (destruct l; simpl; [congruence|lia]).
  unfold Np.interp. cbv zeta. rewrite length_map.
  destruct (Rlt_dec (INR (length l - 1)) r) as [Hr|Hr].
  { rewrite nth_map_Fin by lia. now rewrite knot_interp_right by lra. }
  destruct (Rlt_dec r 0) as [Hneg|Hneg].
  { rewrite nth_map_Fin by lia. now rewrite knot_interp_left. }
  assert (H0 : 0 <= r) by lra.
  destruct (floor_index r H0) as [Hlo Hhi].
  set (j := Z.to_nat (Zfloor r)) in *.
  assert (Hj : (j <= length l - 1)%nat) by (apply INR_le; lra).
  destruct (Nat.eqb j (length l - 1)) eqn:Ej.
  { apply Nat.eqb_eq in Ej. rewrite nth_map_Fin by lia.
    rewrite knot_interp_right by (rewrite <- Ej; lra). now rewrite Ej. }
  apply Nat.eqb_neq in Ej.
  assert (Hlt : r < INR (length l - 1)).
  { destruct (Req_dec_T r (INR (length l - 1))) as [E|E]; [|lra].
    exfalso. apply Ej. unfold j. rewrite E. apply floor_index_INR. }
  rewrite knot_interp_inside by assumption. fold j.
  rewrite !nth_map_Fin by lia.
  destruct (Req_dec_T r (INR j)) as [E|E].
  { f_equal. unfold Np.lerp. rewrite E. ring. }
  rewrite S_INR. unfold fsub, fneg, fadd, fdiv, fmul.
  destruct (Req_dec_T (INR j + 1 - INR j) 0) as [E1|E1]; [lra|].
  cbn [isnan]. f_equal. unfold Np.lerp.
  replace (INR j + 1 - INR j) with 1 by ring. field.
Qed.

(** [np.interp] through a non-decreasing finite curve, at any pixel that is
    not NaN, gives a finite value within the curve's range. *)
Lemma interp_fin_range (l : list R) (x : fl) :
  nondecreasing l -> l <> [] -> x <> NaN ->
  exists v, Np.interp (map Fin l) x = Fin v /\
            nth 0 l 0 <= v <= nth (length l - 1) l 0.
Proof.
  intros Hl Hne Hx.
  assert (Hlen : (0 < length l)%nat) by (destruct l; simpl; [congruence|lia]).
  assert (Hends : nth 0 l 0 <= nth (length l - 1) l 0) by (apply Hl; lia).
  destruct x as [r| | |]; [| | |congruence].
  - rewrite interp_fin by assumption. eexists; split; [reflexivity|].
    now apply knot_interp_range.
  - unfold Np.interp. rewrite length_map, nth_map_Fin by lia.
    eexists; split; [reflexivity|lra].
  - unfold Np.interp. rewrite nth_map_Fin by lia.
    eexists; split; [reflexivity|lra].
Qed.

(** ... and preserves the order of finite pixels. *)
Lemma interp_fin_mono (l : list R) (x y : R) :
  nondecreasing l -> l <> [] -> x <= y ->
  exists u v, Np.interp (map Fin l) (Fin x) = Fin u /\
              Np.interp (map Fin l) (Fin y) = Fin v /\ u <= v.
Proof.
  intros Hl Hne Hxy. rewrite !interp_fin by assumption.
  do 2 eexists. split; [reflexivity|]. split; [reflexivity|].
  now apply knot_interp_mono.
Qed.

(* ================================================================= *)
(** ** C8 and C10: histogram equalisation *)

Lemma hist_eq_scaling_eq (data : ndarray) :
  hist_eq_scaling data =
  Ok (amap (Np.interp (cdf_normalized (Np.histogram (flat data) 256))) data).
Proof. reflexivity. Qed.

Lemma histogram_nonempty (a : list fl) : Np.histogram a 256 <> [].
Proof.
  intros E. apply (f_equal (@length nat)) in E.
  rewrite histogram_length in E. discriminate E.
Qed.

Lemma cdf_normalized_R_nonempty (a : list fl) :
  cdf_normalized_R (Np.histogram a 256) <> [].
Proof.
  intros E. apply (f_equal (@length R)) in E.
  rewrite cdf_normalized_R_length, histogram_length in E. discriminate E.
Qed.

(** With no pixel in [[0, 256]] the whole output is NaN. *)
Lemma hist_eq_scaling_out_of_range (data : ndarray) :
  (forall r, In (Fin r) (flat data) -> r < 0 \/ 256 < r) ->
  hist_eq_scaling data = Ok (amap (fun _ => NaN) data).
Proof.
  intros H. rewrite hist_eq_scaling_eq. unfold amap. do 2 f_equal.
  apply map_ext. intros x. apply interp_all_nan. intros i.
  apply cdf_normalized_nan. now apply total_zero.
Qed.

(** With a pixel in [[0, 256]]: the curve is finite, non-decreasing, within
    [[0, peak]] and ends at the peak; every pixel that is not NaN is mapped
    into [[0, peak]]; finite pixels keep their order. *)
Lemma hist_eq_scaling_in_range (data : ndarray) (r0 : R) :
  In (Fin r0) (flat data) -> 0 <= r0 <= 256 ->
  let img_hist := Np.histogram (flat data) 256 in
  let curve := cdf_normalized_R img_hist in
  hist_eq_scaling data = Ok (amap (Np.interp (map Fin curve)) data) /\
  cdf_normalized img_hist = map Fin curve /\
  length curve = 256%nat /\
  nondecreasing curve /\
  nth 255 curve 0 = INR (Np.amax img_hist) /\
  (forall i, (i < 256)%nat -> 0 <= nth i curve 0 <= INR (Np.amax img_hist)) /\
  (forall x, x <> NaN ->
     exists v, Np.interp (map Fin curve) x = Fin v /\
               0 <= v <= INR (Np.amax img_hist)) /\
  (forall x y, x <= y ->
     exists u v, Np.interp (map Fin curve) (Fin x) = Fin u /\
                 Np.interp (map Fin curve) (Fin y) = Fin v /\ u <= v).
Proof.
  intros Hin Hr img_hist curve.
  pose proof (total_pos (flat data) r0 Hin Hr) as Hpos. fold img_hist in Hpos.
  assert (Hlen : length img_hist = 256%nat) by apply histogram_length.
  assert (Hclen : length curve = 256%nat)
    by (unfold curve; now rewrite cdf_normalized_R_length).
  assert (Hne : curve <> []) by apply cdf_normalized_R_nonempty.
  assert (Hcurve : cdf_normalized img_hist = map Fin curve)
    by (now apply cdf_normalized_fin).
  assert (Hmono : nondecreasing curve)
    by (now apply cdf_normalized_R_nondecreasing).
  assert (Hlast : nth 255 curve 0 = INR (Np.amax img_hist)).
  { pose proof (cdf_normalized_R_last img_hist Hpos
                  (histogram_nonempty (flat data))) as H.
    rewrite Hlen in H. exact H. }
  assert (Hb : forall i, (i < 256)%nat ->
                 0 <= nth i curve 0 <= INR (Np.amax img_hist)).
  { intros i Hi. apply cdf_normalized_R_bounds; [assumption|].
    now rewrite Hlen. }
  split; [|split; [|split; [|split; [|split; [|split; [|split]]]]]];
    try assumption.
  - rewrite hist_eq_scaling_eq. fold img_hist. now rewrite Hcurve.
  - intros x Hx.
    destruct (interp_fin_range curve x Hmono Hne Hx) as (v & Hv & Hlo & Hhi).
    exists v. split; [assumption|].
    rewrite Hclen in Hhi. change (256 - 1)%nat with 255%nat in Hhi.
    rewrite Hlast in Hhi.
    pose proof (Hb 0%nat (Nat.lt_0_succ _)). lra.
  - intros x y Hxy. now apply interp_fin_mono.
Qed.

(** Two pixels of value 255 put the peak count at 2 or more. *)
Lemma peak_two_255 (t : list fl) :
  (2 <= Np.amax (Np.histogram (Fin 255 :: Fin 255 :: t) 256))%nat.
Proof.
  pose proof (list_max_ge_nth (Np.histogram (Fin 255 :: Fin 255 :: t) 256) 255)
    as Hge.
  rewrite histogram_nth in Hge by (apply Nat.lt_succ_diag_r).
  assert (Hb : Np.in_bin 256 255 (Fin 255) = true).
  { apply in_bin_true. rewrite INR_255, INR_256. lra. }
  cbn [filter] in Hge. rewrite Hb in Hge. cbn [length] in Hge.
  unfold Np.amax. lia.
Qed.

(** Two pixels of value 255 are both mapped to the peak count, which is at
    least 2: the output of [hist_eq_scaling] is not confined to [[0,1]]. *)
Lemma hist_eq_scaling_exceeds_unit :
  exists out v,
    hist_eq_scaling img_255_255 = Ok out /\ In (Fin v) (flat out) /\ 1 < v.
Proof.
  assert (Hin : In (Fin 255) (flat img_255_255)) by (simpl; auto).
  destruct (hist_eq_scaling_in_range img_255_255 255 Hin ltac:(lra))
    as (Hout & _ & Hlen & _ & Hlast & _).
  set (curve := cdf_normalized_R (Np.histogram (flat img_255_255) 256)) in *.
  set (peak := Np.amax (Np.histogram (flat img_255_255) 256)) in *.
  assert (Hpeak : (2 <= peak)%nat) by apply peak_two_255.
  exists (amap (Np.interp (map Fin curve)) img_255_255), (INR peak).
  split; [exact Hout|]. split.
  - cbn [amap flat img_255_255 map]. left.
    rewrite interp_fin by apply cdf_normalized_R_nonempty.
    rewrite knot_interp_right.
    + fold curve. rewrite Hlen. change (256 - 1)%nat with 255%nat.
      now rewrite Hlast.
    + fold curve. rewrite Hlen. change (256 - 1)%nat with 255%nat.
      rewrite INR_255. lra.
  - apply le_INR in Hpeak. simpl INR in Hpeak at 1. lra.
Qed.

(** C8 (as stated, refuted).  On the single finite pixel 300 the histogram
    is empty, the rescaling divides 0 by 0, and the output pixel is NaN: it
    does not lie in [[0, peak count]]. *)
Lemma C8_counterexample :
  hist_eq_scaling img_300 = Ok {| shape := [1%nat; 1%nat]; flat := [NaN] |} /\
  ~ exists out,
      hist_eq_scaling img_300 = Ok out /\
      Forall (fun y =>
                fle (Fin 0) y /\
                fle y (Fin (INR (Np.amax (Np.histogram (flat img_300) 256)))))
             (flat out).
Proof.
  assert (H : hist_eq_scaling img_300 =
              Ok {| shape := [1%nat; 1%nat]; flat := [NaN] |}).
  { rewrite hist_eq_scaling_out_of_range; [reflexivity|].
    intros r [E|[]]. injection E as <-. lra. }
  split; [assumption|]. intros (out & Hout & Hall).
  rewrite H in Hout. injection Hout as <-.
  inversion Hall as [|? ? [Hlo _] _]. discriminate Hlo.
Qed.

(** C8 (amended).  [hist_eq_scaling] counts the pixels in 256 bins over the
    edges 0..256 (it derives no [scale_min]/[scale_max]), accumulates the
    counts, and multiplies the cumulative sum by peak count / total count.
    When at least one pixel lies in [[0, 256]] the resulting curve is
    finite, lies in [[0, peak]] and ends at the peak count, its maximum;
    the output has the input's shape, each pixel being mapped through the
    piecewise-linear interpolant of the curve, so that every output that is
    not NaN (NaN pixels stay NaN) lies in [[0, peak]].  The output is not
    normalised to [[0,1]]: two pixels of value 255 are mapped above 1.
    (With no pixel in [[0, 256]] the output is NaN throughout.) *)
Theorem C8_hist_eq_scaling (data : ndarray) (r0 : R) :
  In (Fin r0) (flat data) -> 0 <= r0 <= 256 ->
  let img_hist := Np.histogram (flat data) 256 in
  let cdf := Np.cumsum img_hist in
  let peak := Np.amax img_hist in
  exists curve out,
    length img_hist = 256%nat /\
    (forall i, (i < 256)%nat ->
       nth i img_hist 0%nat
       = length (filter (Np.in_bin 256 i) (flat data))) /\
    length curve = 256%nat /\
    (forall i, (i < 256)%nat ->
       nth i curve 0
       = INR (nth i cdf 0%nat) * INR peak / INR (Np.amax cdf)) /\
    nth 255 curve 0 = INR peak /\
    (forall i, (i < 256)%nat -> 0 <= nth i curve 0 <= INR peak) /\
    hist_eq_scaling data = Ok out /\
    shape out = shape data /\
    flat out = map (Np.interp (map Fin curve)) (flat data) /\
    (forall r, Np.interp (map Fin curve) (Fin r) = Fin (knot_interp curve r)) /\
    Forall (fun y => y = NaN \/ exists v, y = Fin v /\ 0 <= v <= INR peak)
           (flat out) /\
    (exists out' v,
       hist_eq_scaling img_255_255 = Ok out' /\
       In (Fin v) (flat out') /\ 1 < v).
Proof.
  intros Hin Hr img_hist cdf peak.
  destruct (hist_eq_scaling_in_range data r0 Hin Hr)
    as (Hout & _ & Hlen & _ & Hlast & Hb & Hrange & _).
  fold img_hist in Hout, Hlen, Hlast, Hb, Hrange. fold peak in Hlast, Hb, Hrange.
  exists (cdf_normalized_R img_hist).
  exists (amap (Np.interp (map Fin (cdf_normalized_R img_hist))) data).
  split; [apply histogram_length|].
  split; [intros i Hi; now apply histogram_nth|].
  split; [assumption|].
  split.
  { intros i Hi. apply cdf_normalized_R_nth.
    unfold img_hist. now rewrite histogram_length. }
  split; [assumption|]. split; [assumption|]. split; [assumption|].
  split; [reflexivity|]. split; [reflexivity|].
  split.
  { intros r. apply interp_fin. apply cdf_normalized_R_nonempty. }
  split; [|exact hist_eq_scaling_exceeds_unit].
  apply Forall_forall. intros y Hy. cbn [amap flat] in Hy.
  apply in_map_iff in Hy as (x & <- & _).
  destruct x as [r| | |].
  - right. apply Hrange. discriminate.
  - right. apply Hrange. discriminate.
  - right. apply Hrange. discriminate.
  - left. reflexivity.
Qed.

Lemma C8_witness :
  let img_hist := Np.histogram (flat img_5_5) 256 in
  let cdf := Np.cumsum img_hist in
  let peak := Np.amax img_hist in
  exists curve out,
    length img_hist = 256%nat /\
    (forall i, (i < 256)%nat ->
       nth i img_hist 0%nat
       = length (filter (Np.in_bin 256 i) (flat img_5_5))) /\
    length curve = 256%nat /\
    (forall i, (i < 256)%nat ->
       nth i curve 0
       = INR (nth i cdf 0%nat) * INR peak / INR (Np.amax cdf)) /\
    nth 255 curve 0 = INR peak /\
    (forall i, (i < 256)%nat -> 0 <= nth i curve 0 <= INR peak) /\
    hist_eq_scaling img_5_5 = Ok out /\
    shape out = shape img_5_5 /\
    flat out = map (Np.interp (map Fin curve)) (flat img_5_5) /\
    (forall r, Np.interp (map Fin curve) (Fin r) = Fin (knot_interp curve r)) /\
    Forall (fun y => y = NaN \/ exists v, y = Fin v /\ 0 <= v <= INR peak)
           (flat out) /\
    (exists out' v,
       hist_eq_scaling img_255_255 = Ok out' /\
       In (Fin v) (flat out') /\ 1 < v).
Proof.
  apply (C8_hist_eq_scaling img_5_5 5).
  - simpl; auto.
  - lra.
Defined.

(** C10 (as stated, refuted).  300 and 400 are finite entries with
    300 <= 400, yet both outputs are NaN, and NaN <= NaN does not hold. *)
Lemma C10_counterexample :
  hist_eq_scaling img_300_400 =
    Ok {| shape := [1%nat; 2%nat]; flat := [NaN; NaN] |} /\
  ~ exists out,
      hist_eq_scaling img_300_400 = Ok out /\
      fle (nth 0 (flat out) NaN) (nth 1 (flat out) NaN).
Proof.
  assert (H : hist_eq_scaling img_300_400 =
              Ok {| shape := [1%nat; 2%nat]; flat := [NaN; NaN] |}).
  { rewrite hist_eq_scaling_out_of_range; [reflexivity|].
    intros r [E|[E|[]]]; injection E as <-; lra. }
  split; [assumption|]. intros (out & Hout & Hle).
  rewrite H in Hout. injection Hout as <-. discriminate Hle.
Qed.

(** C10 (amended).  When at least one pixel of the array lies in
    [[0, 256]], [hist_eq_scaling] is monotone on finite pixels: for finite
    entries [x <= y] at positions [i] and [j], the outputs at [i] and [j]
    are finite numbers [u <= v]. *)
Theorem C10_hist_eq_monotone (data : ndarray) (r0 : R) :
  In (Fin r0) (flat data) -> 0 <= r0 <= 256 ->
  exists out,
    hist_eq_scaling data = Ok out /\
    forall i j x y,
      nth_error (flat data) i = Some (Fin x) ->
      nth_error (flat data) j = Some (Fin y) ->
      x <= y ->
      exists u v,
        nth_error (flat out) i = Some (Fin u) /\
        nth_error (flat out) j = Some (Fin v) /\
        u <= v.
Proof.
  intros Hin Hr.
  destruct (hist_eq_scaling_in_range data r0 Hin Hr)
    as (Hout & _ & _ & _ & _ & _ & _ & Hmono).
  eexists. split; [exact Hout|].
  intros i j x y Hi Hj Hxy. cbn [amap flat].
  destruct (Hmono x y Hxy) as (u & v & Hu & Hv & Huv).
  exists u, v. split; [|split; [|assumption]].
  - rewrite <- Hu. now apply map_nth_error.
  - rewrite <- Hv. now apply map_nth_error.
Qed.

Lemma C10_witness :
  exists out,
    hist_eq_scaling img_0_5_10 = Ok out /\
    forall i j x y,
      nth_error (flat img_0_5_10) i = Some (Fin x) ->
      nth_error (flat img_0_5_10) j = Some (Fin y) ->
      x <= y ->
      exists u v,
        nth_error (flat out) i = Some (Fin u) /\
        nth_error (flat out) j = Some (Fin v) /\
        u <= v.
Proof.
  apply (C10_hist_eq_monotone img_0_5_10 5).
  - simpl; auto.
  - lra.
Defined.

(* ================================================================= *)
(** ** The hypothesis of C1 is met by each of the five methods *)

(** The percentile of two values [a <= b]: [a + (b - a) * q / 100]. *)
Lemma percentile1_pair (a b q : R) :
  a <= b -> 0 <= q < 100 ->
  Np.percentile1 [a; b] q = a + (b - a) * (q / 100).
Proof.
  intros Hab [Hq0 Hq1]. unfold Np.percentile1. cbn [Np.sort Np.insert].
  destruct (Rle_dec a b) as [_|Hn]; [|lra].
  cbn [length Nat.sub nth]. simpl INR.
  destruct (Rle_dec 1 (1 * (q / 100))) as [H|_]; [lra|].
  destruct (Rlt_dec (1 * (q / 100)) 0) as [H|_]; [lra|].
  assert (E : Zfloor (1 * (q / 100)) = 0%Z) by (apply Zfloor_eq; simpl; lra).
  rewrite E. cbn [Z.to_nat nth]. simpl INR. unfold Np.lerp. lra.
Qed.

(** The median of [[3, 1]] is 2. *)
Lemma percentile1_median_example : Np.percentile1 [3; 1] 50 = 2.
Proof.
  assert (E : Np.percentile1 [3; 1] 50 = Np.percentile1 [1; 3] 50).
  { unfold Np.percentile1. cbn [Np.sort Np.insert].
    destruct (Rle_dec 3 1) as [H|_]; [lra|].
    destruct (Rle_dec 1 3) as [_|H]; [|lra]. reflexivity. }
  rewrite E, percentile1_pair by lra. lra.
Qed.

Lemma ln_2_pos : 0 < ln 2.
Proof. rewrite <- ln_1. apply ln_increasing; lra. Qed.

Lemma ln_10_pos : 0 < ln 10.
Proof. rewrite <- ln_1. apply ln_increasing; lra. Qed.

Lemma Rlog10_1 : Rlog10 1 = 0.
Proof. unfold Rlog10. rewrite ln_1. field. pose proof ln_10_pos. lra. Qed.

Lemma Rlog10_2_pos : 0 < Rlog10 2.
Proof.
  unfold Rlog10. apply Rmult_lt_0_compat; [apply ln_2_pos|].
  apply Rinv_0_lt_compat, ln_10_pos.
Qed.

Lemma log_scaling_0_1 :
  log_scaling img_0_1 None None =
  Ok {| shape := [1%nat; 2%nat]; flat := [Fin 0; Fin 1] |}.
Proof.
  pose proof Rlog10_2_pos as H2.
  unfold log_scaling, extrema_range, img_0_1, amap; simpl.
  unfold Np.clip, fsub, ffmin, ffmax, fmaximum, fminimum, fleb, Rleb; simpl.
  rdec. simpl. rdec.
  replace (0 + - 0 + 1) with 1 by ring.
  replace (1 + - 0 + 1) with 2 by ring.
  rewrite Rlog10_1. unfold fdiv.
  destruct (Req_dec_T (Rlog10 2) 0); [lra|].
  replace (0 / Rlog10 2) with 0 by (field; lra).
  replace (Rlog10 2 / Rlog10 2) with 1 by (field; lra).
  reflexivity.
Qed.

Lemma asinh_scaling_0_1 :
  asinh_scaling img_0_1 None None default_non_linear =
  Ok {| shape := [1%nat; 2%nat]; flat := [Fin 0; Fin 1] |}.
Proof.
  assert (Hh : 0 < arcsinh (1 / 2)) by (apply arcsinh_pos; lra).
  unfold asinh_scaling, extrema_range, img_0_1, amap, default_non_linear;
    simpl.
  unfold fsub, ffmin, ffmax, fleb, Rleb; simpl. rdec. simpl. rdec.
  replace ((0 + - 0) / 2) with 0 by field.
  replace ((1 + - 0) / 2) with (1 / 2) by field.
  cbn [farcsinh]. rewrite arcsinh_0. unfold fdiv.
  destruct (Req_dec_T (arcsinh (1 / 2)) 0); [lra|].
  replace (0 / arcsinh (1 / 2)) with 0 by (field; lra).
  replace (arcsinh (1 / 2) / arcsinh (1 / 2)) with 1 by (field; lra).
  reflexivity.
Qed.

Lemma sqrt_scaling_0_1 :
  sqrt_scaling img_0_1 None None default_percentiles =
  Ok {| shape := [1%nat; 2%nat]; flat := [Fin 0; Fin 1] |}.
Proof.
  assert (Hrange : percentile_range (flat img_0_1) None None
                     default_percentiles
                   = Ok (Fin (1 / 100), Fin (99 / 100))).
  { unfold percentile_range, Np.percentile.
    rewrite default_percentiles_valid. cbn.
    rewrite !percentile1_pair by lra. do 3 f_equal; lra. }
  unfold sqrt_scaling. rewrite Hrange. cbn [bind fst snd].
  assert (Hd : 0 < sqrt (99 / 100 + - (1 / 100)))
    by (apply sqrt_lt_R0; lra).
  unfold amap, img_0_1. cbn [shape flat map].
  unfold Np.clip at 2 4. unfold fmaximum, fminimum, fleb, Rleb.
  destruct (Rle_dec 0 (1 / 100)) as [_|H]; [|lra].
  destruct (Rle_dec (1 / 100) (99 / 100)) as [_|H]; [|lra].
  destruct (Rle_dec 1 (1 / 100)) as [H|_]; [lra|].
  destruct (Rle_dec 1 (99 / 100)) as [H|_]; [lra|].
  unfold fsub, fneg, fadd, fsqrt.
  destruct (Rle_dec 0 (1 / 100 + - (1 / 100))) as [_|H]; [|lra].
  destruct (Rle_dec 0 (99 / 100 + - (1 / 100))) as [_|H]; [|lra].
  unfold fdiv.
  destruct (Req_dec_T (sqrt (99 / 100 + - (1 / 100))) 0) as [H|_]; [lra|].
  replace (1 / 100 + - (1 / 100)) with 0 by lra. rewrite sqrt_0.
  replace (0 / sqrt (99 / 100 + - (1 / 100))) with 0 by (field; lra).
  replace (sqrt (99 / 100 + - (1 / 100)) / sqrt (99 / 100 + - (1 / 100)))
    with 1 by (field; lra).
  rewrite !clip_unit_fin by lra. reflexivity.
Qed.

Lemma cumsum_nth_0 (l : list nat) :
  nth 0 (Np.cumsum l) 0%nat = nth 0 l 0%nat.
Proof. destruct l; reflexivity. Qed.

Lemma hist_eq_scaling_255_255_m1 :
  exists peak : nat,
    (2 <= peak)%nat /\
    hist_eq_scaling img_255_255_m1 =
    Ok {| shape := [1%nat; 3%nat];
          flat := [Fin (INR peak); Fin (INR peak); Fin 0] |}.
Proof.
  assert (Hin : In (Fin 255) (flat img_255_255_m1)) by (simpl; auto).
  destruct (hist_eq_scaling_in_range img_255_255_m1 255 Hin ltac:(lra))
    as (Hout & _ & Hlen & _ & Hlast & _).
  set (img_hist := Np.histogram (flat img_255_255_m1) 256) in *.
  set (curve := cdf_normalized_R img_hist) in *.
  exists (Np.amax img_hist). split; [apply peak_two_255|].
  rewrite Hout. unfold amap, img_255_255_m1. cbn [shape flat map].
  assert (Hne : curve <> []) by apply cdf_normalized_R_nonempty.
  rewrite !interp_fin by assumption.
  assert (H255 : knot_interp curve 255 = INR (Np.amax img_hist)).
  { rewrite knot_interp_right.
    - rewrite Hlen. change (256 - 1)%nat with 255%nat. exact Hlast.
    - rewrite Hlen. change (256 - 1)%nat with 255%nat. rewrite INR_255. lra. }
  assert (Hm1 : knot_interp curve (-1) = 0).
  { rewrite knot_interp_left by lra. unfold curve.
    rewrite cdf_normalized_R_nth
      by (unfold img_hist; rewrite histogram_length; apply Nat.lt_0_succ).
    rewrite cumsum_nth_0. unfold img_hist.
    rewrite histogram_nth by (apply Nat.lt_0_succ).
    assert (Hb1 : Np.in_bin 256 0 (Fin 255) = false).
    { apply not_true_is_false. intros H. apply in_bin_true in H.
      simpl INR in H at 1 2. destruct H as [_ [H|[H _]]]; [lra|discriminate H]. }
    assert (Hb2 : Np.in_bin 256 0 (Fin (-1)) = false).
    { apply in_no_bin; [apply Nat.lt_0_succ|left; lra]. }
    unfold img_255_255_m1. cbn [flat filter]. rewrite Hb1, Hb2.
    cbn [length]. simpl INR at 1. unfold Rdiv. ring. }
  rewrite H255, Hm1. reflexivity.
Qed.

(** Each of the five methods returns, on some image and with default
    parameters, an array with two distinct finite values: the hypothesis
    of C1 is met by every method. *)
Lemma two_distinct_finite_reachable (scaling_method : string) :
  In scaling_method methods ->
  exists data res,
    apply_scaling data scaling_method no_kwargs = Ok res /\
    two_distinct_finite (flat res).
Proof.
  intros Hm. simpl in Hm.
  destruct Hm as [<-|[<-|[<-|[<-|[<-|[]]]]]].
  - exists img_0_5_10. eexists. split.
    + change (apply_scaling img_0_5_10 "linear" no_kwargs)
        with (linear_scaling img_0_5_10 None None).
      apply linear_scaling_0_5_10.
    + exists 0, 1. simpl. repeat split; auto; lra.
  - exists img_0_1. eexists. split.
    + change (apply_scaling img_0_1 "log" no_kwargs)
        with (log_scaling img_0_1 None None).
      apply log_scaling_0_1.
    + exists 0, 1. simpl. repeat split; auto; lra.
  - exists img_0_1. eexists. split.
    + change (apply_scaling img_0_1 "sqrt" no_kwargs)
        with (sqrt_scaling img_0_1 None None default_percentiles).
      apply sqrt_scaling_0_1.
    + exists 0, 1. simpl. repeat split; auto; lra.
  - destruct hist_eq_scaling_255_255_m1 as (peak & Hpeak & Hout).
    exists img_255_255_m1. eexists. split.
    + change (apply_scaling img_255_255_m1 "hist_eq" no_kwargs)
        with (hist_eq_scaling img_255_255_m1).
      exact Hout.
    + exists (INR peak), 0. simpl. repeat split; auto.
      apply le_INR in Hpeak. simpl INR in Hpeak at 1. lra.
  - exists img_0_1. eexists. split.
    + change (apply_scaling img_0_1 "asinh" no_kwargs)
        with (asinh_scaling img_0_1 None None default_non_linear).
      apply asinh_scaling_0_1.
    + exists 0, 1. simpl. repeat split; auto; lra.
Qed.

(* ================================================================= *)
(** ** Further properties of the scaling methods *)

Lemma clip_Fin (x lo hi : R) :
  Np.clip (Fin x) (Fin lo) (Fin hi) = Fin (Rclamp x lo hi).
Proof.
  unfold Np.clip, Rclamp, fmaximum, fminimum, fleb, Rleb, Rmax, Rmin.
  destruct (Rle_dec x lo); destruct (Rle_dec lo hi); destruct (Rle_dec x hi);
    try reflexivity; exfalso; lra.
Qed.

Lemma Rclamp_bounds (x lo hi : R) : lo <= hi -> lo <= Rclamp x lo hi <= hi.
Proof.
  intros H. unfold Rclamp, Rmin, Rmax.
  destruct (Rle_dec x lo); destruct (Rle_dec _ hi); lra.
Qed.

Lemma Rclamp_id (x lo hi : R) : lo <= x <= hi -> Rclamp x lo hi = x.
Proof.
  intros H. unfold Rclamp, Rmin, Rmax.
  destruct (Rle_dec x lo); destruct (Rle_dec _ hi); lra.
Qed.

Lemma Rclamp_low (x lo hi : R) : lo <= hi -> x <= lo -> Rclamp x lo hi = lo.
Proof.
  intros H Hx. unfold Rclamp, Rmin, Rmax.
  destruct (Rle_dec x lo); destruct (Rle_dec _ hi); lra.
Qed.

Lemma Rclamp_high (x lo hi : R) : lo <= hi -> hi <= x -> Rclamp x lo hi = hi.
Proof.
  intros H Hx. unfold Rclamp, Rmin, Rmax.
  destruct (Rle_dec x lo); destruct (Rle_dec _ hi); lra.
Qed.

Lemma Rclamp_mono (x y lo hi : R) :
  x <= y -> Rclamp x lo hi <= Rclamp y lo hi.
Proof.
  intros H. unfold Rclamp, Rmin, Rmax.
  destruct (Rle_dec x lo); destruct (Rle_dec y lo);
    repeat match goal with |- context [Rle_dec ?a ?b] =>
      destruct (Rle_dec a b) end; lra.
Qed.

(** [np.clip(x, 0, 1)] is NaN or a number of [[0,1]], whatever [x] is. *)
Lemma clip_unit_cases (x : fl) :
  Np.clip x (Fin 0) (Fin 1) = NaN \/
  exists v, Np.clip x (Fin 0) (Fin 1) = Fin v /\ 0 <= v <= 1.
Proof.
  destruct x as [r| | |].
  - right. rewrite clip_Fin. eexists. split; [reflexivity|].
    apply Rclamp_bounds. lra.
  - right. exists 1. split; [|lra].
    unfold Np.clip, fmaximum, fminimum, fleb, Rleb. reflexivity.
  - right. exists 0. split; [|lra].
    unfold Np.clip, fmaximum, fminimum, fleb, Rleb.
    destruct (Rle_dec 0 1); [reflexivity|lra].
  - left. reflexivity.
Qed.

(** X1.  Whatever the data and the bounds (supplied or derived, also equal,
    reversed, infinite or NaN): an array returned by [linear_scaling] has
    the input's shape and each of its entries is NaN or a number of
    [[0,1]]; no entry is infinite. *)
Theorem X1_linear_scaling_clipped
    (data out : ndarray) (scale_min scale_max : option fl) :
  linear_scaling data scale_min scale_max = Ok out ->
  shape out = shape data /\
  length (flat out) = length (flat data) /\
  Forall (fun y => y = NaN \/ exists v, y = Fin v /\ 0 <= v <= 1) (flat out).
Proof.
  unfold linear_scaling.
  destruct (extrema_range (flat data) scale_min scale_max) as [r|e];
    [|discriminate].
  cbn [bind]. intros H. injection H as <-. cbn [amap shape flat].
  split; [reflexivity|]. split; [apply length_map|].
  apply Forall_forall. intros y Hy. apply in_map_iff in Hy as (x & <- & _).
  destruct (clip_unit_cases
              (fdiv (fsub x (fst r)) (fsub (snd r) (fst r)))) as [E|E];
    [left|right]; exact E.
Qed.

Lemma X1_witness :
  shape {| shape := [1%nat; 3%nat]; flat := [Fin 0; Fin (1 / 2); Fin 1] |}
    = shape img_0_5_10 /\
  length (flat {| shape := [1%nat; 3%nat];
                  flat := [Fin 0; Fin (1 / 2); Fin 1] |})
    = length (flat img_0_5_10) /\
  Forall (fun y => y = NaN \/ exists v, y = Fin v /\ 0 <= v <= 1)
    (flat {| shape := [1%nat; 3%nat]; flat := [Fin 0; Fin (1 / 2); Fin 1] |}).
Proof.
  apply (X1_linear_scaling_clipped img_0_5_10 _ None None).
  exact linear_scaling_0_5_10.
Defined.

(** X2.  The same for [sqrt_scaling]: whatever the data, the bounds and the
    percentiles, a returned array has the input's shape and each of its
    entries is NaN or a number of [[0,1]]. *)
Theorem X2_sqrt_scaling_clipped
    (data out : ndarray) (scale_min scale_max : option fl)
    (percentiles : fl * fl) :
  sqrt_scaling data scale_min scale_max percentiles = Ok out ->
  shape out = shape data /\
  length (flat out) = length (flat data) /\
  Forall (fun y => y = NaN \/ exists v, y = Fin v /\ 0 <= v <= 1) (flat out).
Proof.
  unfold sqrt_scaling.
  destruct (percentile_range (flat data) scale_min scale_max percentiles)
    as [r|e]; [|discriminate].
  cbn [bind]. intros H. injection H as <-. cbn [amap shape flat].
  split; [reflexivity|]. split; [apply length_map|].
  apply Forall_forall. intros y Hy. apply in_map_iff in Hy as (x & <- & _).
  match goal with |- context [Np.clip ?a (Fin 0) (Fin 1)] =>
    destruct (clip_unit_cases a) as [E|E] end;
    [left|right]; exact E.
Qed.

Lemma X2_witness :
  shape {| shape := [1%nat; 2%nat]; flat := [Fin 0; Fin 1] |}
    = shape img_0_1 /\
  length (flat {| shape := [1%nat; 2%nat]; flat := [Fin 0; Fin 1] |})
    = length (flat img_0_1) /\
  Forall (fun y => y = NaN \/ exists v, y = Fin v /\ 0 <= v <= 1)
    (flat {| shape := [1%nat; 2%nat]; flat := [Fin 0; Fin 1] |}).
Proof.
  apply (X2_sqrt_scaling_clipped img_0_1 _ None None default_percentiles).
  exact sqrt_scaling_0_1.
Defined.

(** The magnitudes of [safe_bound] and [resolution]. *)
Lemma safe_bound_large : 1024 <= safe_bound.
Proof.
  unfold safe_bound. replace 1024 with (2 ^ 10) by (simpl; lra).
  apply Rle_pow; [lra|lia].
Qed.

Lemma safe_small (x : R) : Rabs x <= 1024 -> safe x.
Proof. intros H. unfold safe. pose proof safe_bound_large. lra. Qed.





Ltac safe_tac :=
  apply safe_small; unfold Rabs;
  match goal with |- context [Rcase_abs ?x] => destruct (Rcase_abs x) end;
  lra.

Lemma fdiv_Fin (a b : R) : b <> 0 -> fdiv (Fin a) (Fin b) = Fin (a / b).
Proof. intros H. unfold fdiv. destruct (Req_dec_T b 0); [contradiction|reflexivity]. Qed.

Lemma div_unit (a d : R) : 0 <= a <= d -> 0 < d -> 0 <= a / d <= 1.
Proof.
  intros [H0 H1] Hd. assert (Hi : 0 < / d) by (now apply Rinv_0_lt_compat).
  unfold Rdiv. split; [nra|].
  apply Rmult_le_reg_r with d; [assumption|].
  rewrite Rmult_assoc, Rinv_l by lra. lra.
Qed.

Lemma div_mono (a b d : R) : 0 < d -> a <= b -> a / d <= b / d.
Proof.
  intros Hd Hab. assert (Hi : 0 < / d) by (now apply Rinv_0_lt_compat).
  unfold Rdiv. nra.
Qed.

Lemma div_lt_mono (a b d : R) : 0 < d -> a < b -> a / d < b / d.
Proof.
  intros Hd Hab. assert (Hi : 0 < / d) by (now apply Rinv_0_lt_compat).
  unfold Rdiv. nra.
Qed.

Lemma div_self (d : R) : 0 < d -> d / d = 1.
Proof. intros. field. lra. Qed.

Lemma amap_nth_error (f : fl -> fl) (data : ndarray) (i : nat) (x : fl) :
  nth_error (flat data) i = Some x ->
  nth_error (flat (amap f data)) i = Some (f x).
Proof. intros H. cbn [amap flat]. now apply map_nth_error. Qed.

(** One pixel of [linear_scaling] under finite bounds [lo < hi]. *)
Lemma linear_pixel_Fin (lo hi x : R) :
  lo < hi ->
  Np.clip (fdiv (fsub (Fin x) (Fin lo)) (fsub (Fin hi) (Fin lo)))
          (Fin 0) (Fin 1)
  = Fin (Rclamp ((x - lo) / (hi - lo)) 0 1).
Proof.
  intros H. unfold fsub, fneg, fadd. rewrite fdiv_Fin by lra.
  rewrite clip_Fin. reflexivity.
Qed.








Lemma clip_PInf (lo hi : R) : Np.clip PInf (Fin lo) (Fin hi) = Fin hi.
Proof. reflexivity. Qed.

Lemma clip_NInf (lo hi : R) :
  lo <= hi -> Np.clip NInf (Fin lo) (Fin hi) = Fin lo.
Proof.
  intros H. unfold Np.clip, fmaximum, fminimum, fleb, Rleb.
  destruct (Rle_dec lo hi); [reflexivity|lra].
Qed.




(** One pixel of [sqrt_scaling] once its clipped value [c] is known. *)
Lemma sqrt_pixel_Fin (lo hi c : R) :
  lo < hi -> lo <= c <= hi ->
  Np.clip (fdiv (fsqrt (fsub (Fin c) (Fin lo)))
                (fsqrt (fsub (Fin hi) (Fin lo))))
          (Fin 0) (Fin 1)
  = Fin (sqrt (c - lo) / sqrt (hi - lo)).
Proof.
  intros Hlh Hc. unfold fsub, fneg, fadd, fsqrt.
  destruct (Rle_dec 0 (c + - lo)); [|lra].
  destruct (Rle_dec 0 (hi + - lo)); [|lra].
  pose proof (sqrt_lt_R0 (hi + - lo) ltac:(lra)) as Hd.
  rewrite fdiv_Fin by lra. rewrite clip_Fin. f_equal.
  apply Rclamp_id. apply div_unit; [|assumption]. split.
  - apply sqrt_pos.
  - apply sqrt_le_1_alt. lra.
Qed.

(** X6.  [sqrt_scaling] with a resolved finite range [lo < hi] (supplied or
    taken from the percentiles) whose two bounds are of [safe] magnitude,
    so that [scale_max - scale_min] does not overflow: a finite pixel [x]
    is mapped to [sqrt (clamp x - lo) / sqrt (hi - lo)], a number of
    [[0,1]]; pixels at or below [lo] (and [-inf]) go to 0, pixels at or
    above [hi] (and [+inf]) go to 1; the order of finite pixels is
    preserved. *)
Theorem X6_sqrt_scaling_profile
    (data : ndarray) (scale_min scale_max : option fl)
    (percentiles : fl * fl) (lo hi : R) :
  percentile_range (flat data) scale_min scale_max percentiles
    = Ok (Fin lo, Fin hi) ->
  lo < hi -> safe lo -> safe hi ->
  exists out,
    sqrt_scaling data scale_min scale_max percentiles = Ok out /\
    (forall i x, nth_error (flat data) i = Some (Fin x) ->
       exists v,
         nth_error (flat out) i = Some (Fin v) /\
         v = sqrt (Rclamp x lo hi - lo) / sqrt (hi - lo) /\
         0 <= v <= 1) /\
    (forall i x, nth_error (flat data) i = Some (Fin x) -> x <= lo ->
       nth_error (flat out) i = Some (Fin 0)) /\
    (forall i x, nth_error (flat data) i = Some (Fin x) -> hi <= x ->
       nth_error (flat out) i = Some (Fin 1)) /\
    (forall i, nth_error (flat data) i = Some PInf ->
       nth_error (flat out) i = Some (Fin 1)) /\
    (forall i, nth_error (flat data) i = Some NInf ->
       nth_error (flat out) i = Some (Fin 0)) /\
    (forall i j x y,
       nth_error (flat data) i = Some (Fin x) ->
       nth_error (flat data) j = Some (Fin y) ->
       x <= y ->
       exists u v,
         nth_error (flat out) i = Some (Fin u) /\
         nth_error (flat out) j = Some (Fin v) /\ u <= v).
Proof.
  intros Hr Hlh _ _. unfold sqrt_scaling. rewrite Hr. cbn [bind fst snd].
  match goal with |- exists out, Ok ?o = Ok out /\ _ =>
    exists o; split; [reflexivity|]; set (res := o) end.
  pose proof (sqrt_lt_R0 (hi - lo) ltac:(lra)) as Hden.
  set (g := fun c : R => sqrt (c - lo) / sqrt (hi - lo)).
  assert (Hg0 : g lo = 0).
  { unfold g. replace (lo - lo) with 0 by ring. rewrite sqrt_0.
    unfold Rdiv. ring. }
  assert (Hg1 : g hi = 1) by (unfold g; now apply div_self).
  assert (Hgm : forall a b, lo <= a -> a <= b -> g a <= g b).
  { intros a b Ha Hab. unfold g. apply div_mono; [assumption|].
    apply sqrt_le_1_alt. lra. }
  assert (Hpix : forall i x, nth_error (flat data) i = Some (Fin x) ->
            nth_error (flat res) i = Some (Fin (g (Rclamp x lo hi)))).
  { intros i x Hi. unfold res. rewrite (amap_nth_error _ _ _ _ Hi). cbv zeta.
    rewrite clip_Fin.
    pose proof (Rclamp_bounds x lo hi ltac:(lra)).
    rewrite sqrt_pixel_Fin by lra. reflexivity. }
  split; [|split; [|split; [|split; [|split]]]].
  - intros i x Hi. eexists. split; [exact (Hpix i x Hi)|].
    split; [reflexivity|].
    pose proof (Rclamp_bounds x lo hi ltac:(lra)) as [Hc0 Hc1].
    rewrite <- Hg0, <- Hg1. split; apply Hgm; lra.
  - intros i x Hi Hx. rewrite (Hpix i x Hi).
    rewrite Rclamp_low by lra. now rewrite Hg0.
  - intros i x Hi Hx. rewrite (Hpix i x Hi).
    rewrite Rclamp_high by lra. now rewrite Hg1.
  - intros i Hi. unfold res. rewrite (amap_nth_error _ _ _ _ Hi). cbv zeta.
    rewrite clip_PInf, sqrt_pixel_Fin by lra. fold (g hi). now rewrite Hg1.
  - intros i Hi. unfold res. rewrite (amap_nth_error _ _ _ _ Hi). cbv zeta.
    rewrite clip_NInf, sqrt_pixel_Fin by lra. fold (g lo). now rewrite Hg0.
  - intros i j x y Hi Hj Hxy. do 2 eexists.
    split; [exact (Hpix i x Hi)|]. split; [exact (Hpix j y Hj)|].
    apply Hgm.
    + apply Rclamp_bounds; lra.
    + now apply Rclamp_mono.
Qed.

Lemma X6_witness :
  exists out,
    sqrt_scaling img_0_5_10 (Some (Fin 0)) (Some (Fin 10))
      default_percentiles = Ok out /\
    (forall i x, nth_error (flat img_0_5_10) i = Some (Fin x) ->
       exists v,
         nth_error (flat out) i = Some (Fin v) /\
         v = sqrt (Rclamp x 0 10 - 0) / sqrt (10 - 0) /\
         0 <= v <= 1) /\
    (forall i x, nth_error (flat img_0_5_10) i = Some (Fin x) -> x <= 0 ->
       nth_error (flat out) i = Some (Fin 0)) /\
    (forall i x, nth_error (flat img_0_5_10) i = Some (Fin x) -> 10 <= x ->
       nth_error (flat out) i = Some (Fin 1)) /\
    (forall i, nth_error (flat img_0_5_10) i = Some PInf ->
       nth_error (flat out) i = Some (Fin 1)) /\
    (forall i, nth_error (flat img_0_5_10) i = Some NInf ->
       nth_error (flat out) i = Some (Fin 0)) /\
    (forall i j x y,
       nth_error (flat img_0_5_10) i = Some (Fin x) ->
       nth_error (flat img_0_5_10) j = Some (Fin y) ->
       x <= y ->
       exists u v,
         nth_error (flat out) i = Some (Fin u) /\
         nth_error (flat out) j = Some (Fin v) /\ u <= v).
Proof.
  apply (X6_sqrt_scaling_profile img_0_5_10 (Some (Fin 0)) (Some (Fin 10))
           default_percentiles 0 10).
  - reflexivity.
  - lra.
  - safe_tac.
  - safe_tac.
Defined.





(* ================================================================= *)
(** ** Further properties of the range estimation *)

Lemma ffmin_cases (a y : fl) : ffmin a y = a \/ ffmin a y = y.
Proof. destruct a, y; simpl; auto; destruct (Rleb _ _); auto. Qed.

Lemma ffmax_cases (a y : fl) : ffmax a y = a \/ ffmax a y = y.
Proof. destruct a, y; simpl; auto; destruct (Rleb _ _); auto. Qed.

Lemma fold_ffmin_in (t : list fl) (x : fl) :
  In (fold_left ffmin t x) (x :: t).
Proof.
  revert x; induction t as [|y t IH]; intros x; simpl; [auto|].
  destruct (IH (ffmin x y)) as [E|Hin]; [|auto].
  rewrite <- E. destruct (ffmin_cases x y) as [-> | ->]; auto.
Qed.

Lemma fold_ffmax_in (t : list fl) (x : fl) :
  In (fold_left ffmax t x) (x :: t).
Proof.
  revert x; induction t as [|y t IH]; intros x; simpl; [auto|].
  destruct (IH (ffmax x y)) as [E|Hin]; [|auto].
  rewrite <- E. destruct (ffmax_cases x y) as [-> | ->]; auto.
Qed.

Lemma nanmin_in (a : list fl) (m : fl) : Np.nanmin a = Ok m -> In m a.
Proof.
  destruct a as [|x t]; simpl; [discriminate|].
  intros H. injection H as <-. apply fold_ffmin_in.
Qed.

Lemma nanmax_in (a : list fl) (m : fl) : Np.nanmax a = Ok m -> In m a.
Proof.
  destruct a as [|x t]; simpl; [discriminate|].
  intros H. injection H as <-. apply fold_ffmax_in.
Qed.

Lemma nanmin_le (a : list fl) (m y : fl) :
  Np.nanmin a = Ok m -> In y a -> y <> NaN -> fle m y.
Proof.
  intros Hm Hin Hy. destruct (nanmin_lower_bound a y Hin Hy) as (lo & E & H).
  rewrite Hm in E. now injection E as <-.
Qed.

Lemma nanmax_ge (a : list fl) (m y : fl) :
  Np.nanmax a = Ok m -> In y a -> y <> NaN -> fle y m.
Proof.
  intros Hm Hin Hy. destruct (nanmax_upper_bound a y Hin Hy) as (hi & E & H).
  rewrite Hm in E. now injection E as <-.
Qed.

Lemma select_finite_In (a : list fl) (r : R) :
  In (Fin r) (Np.select_finite a) <-> In (Fin r) a.
Proof.
  unfold Np.select_finite. rewrite filter_In. simpl. tauto.
Qed.

(** The extrema rule returns the least and the greatest finite entry. *)
Lemma extrema_range_min_max (data : list fl) (x : fl) :
  In x data -> isfinite x = true ->
  exists lo hi : R,
    extrema_range data None None = Ok (Fin lo, Fin hi) /\
    In (Fin lo) data /\ In (Fin hi) data /\
    forall r, In (Fin r) data -> lo <= r <= hi.
Proof.
  intros Hin Hx.
  destruct (extrema_range_finite data x Hin Hx) as (lo & hi & E).
  exists lo, hi. split; [assumption|].
  unfold extrema_range in E.
  destruct (Np.nanmin (Np.select_finite data)) as [m|] eqn:Emin;
    [|discriminate].
  destruct (Np.nanmax (Np.select_finite data)) as [M|] eqn:Emax;
    [|discriminate].
  cbn [bind] in E. injection E as -> ->.
  split; [apply select_finite_In, nanmin_in, Emin|].
  split; [apply select_finite_In, nanmax_in, Emax|].
  intros r Hr. apply select_finite_In in Hr. split; apply fle_Fin.
  - apply (nanmin_le _ _ _ Emin Hr). discriminate.
  - apply (nanmax_ge _ _ _ Emax Hr). discriminate.
Qed.

(** X8.  With no bound supplied and at least one finite entry, the range
    derived by the extrema rule of [linear_scaling], [log_scaling] and
    [asinh_scaling] is the true minimum and maximum of the finite entries:
    both bounds are entries of the array and every finite entry lies
    between them; NaN and infinite entries play no part. *)
Theorem X8_extrema_range_min_max (data : list fl) (x : fl) :
  In x data -> isfinite x = true ->
  exists lo hi : R,
    extrema_range data None None = Ok (Fin lo, Fin hi) /\
    In (Fin lo) data /\ In (Fin hi) data /\
    forall r, In (Fin r) data -> lo <= r <= hi.
Proof. exact (extrema_range_min_max data x). Qed.

Lemma X8_witness :
  exists lo hi : R,
    extrema_range pixels_mixed None None = Ok (Fin lo, Fin hi) /\
    In (Fin lo) pixels_mixed /\ In (Fin hi) pixels_mixed /\
    forall r, In (Fin r) pixels_mixed -> lo <= r <= hi.
Proof.
  apply (X8_extrema_range_min_max pixels_mixed (Fin 3)).
  - simpl; tauto.
  - reflexivity.
Defined.

Lemma reals_In (a : list fl) (r : R) : In r (Np.reals a) <-> In (Fin r) a.
Proof.
  induction a as [|x t IH]; simpl; [tauto|].
  destruct x; simpl; rewrite IH; split; intros H;
    try (destruct H as [H|H]; [try discriminate|]); auto.
  - left. congruence.
  - injection H as ->. now left.
Qed.

Lemma sort_In (l : list R) (r : R) : In r (Np.sort l) <-> In r l.
Proof.
  split; apply Permutation_in; [symmetry|]; apply sort_perm.
Qed.

(** A percentile of a non-empty array lies between two of its entries. *)
Lemma percentile1_between (a : list R) (q : R) :
  a <> [] ->
  exists u v, In u a /\ In v a /\ u <= Np.percentile1 a q <= v.
Proof.
  intros Hne. rewrite percentile1_knot.
  assert (Hsne : Np.sort a <> []).
  { intros E. apply Hne, length_zero_iff_nil.
    rewrite <- sort_length, E. reflexivity. }
  assert (Hlen : (0 < length (Np.sort a))%nat)
    by (destruct (Np.sort a); simpl; [congruence|lia]).
  exists (nth 0 (Np.sort a) 0), (nth (length (Np.sort a) - 1) (Np.sort a) 0).
  split; [apply sort_In, nth_In; lia|].
  split; [apply sort_In, nth_In; lia|].
  apply knot_interp_range; [|assumption].
  apply sorted_nondecreasing, sort_sorted.
Qed.







(* ================================================================= *)
(** ** Further properties of the dispatcher *)

(** Every scaling method maps a NaN pixel to NaN. *)
Lemma apply_scaling_pointwise_nan
    (data res : ndarray) (scaling_method : string) (kw : kwargs) :
  apply_scaling data scaling_method kw = Ok res ->
  exists f, res = amap f data /\ f NaN = NaN.
Proof.
  unfold apply_scaling.
  repeat match goal with
    | |- context [String.eqb scaling_method ?s] =>
        destruct (String.eqb scaling_method s)
    end;
    try discriminate;
    match goal with
    | |- context [bind_kwargs ?a kw] => destruct (bind_kwargs a kw)
    end; simpl; try discriminate;
    unfold asinh_scaling, linear_scaling, log_scaling, sqrt_scaling,
      hist_eq_scaling;
    try match goal with
      | |- context [extrema_range ?a ?b ?c] => destruct (extrema_range a b c)
      | |- context [percentile_range ?a ?b ?c ?d] =>
          destruct (percentile_range a b c d)
      end; simpl; try discriminate;
    try match goal with
      | |- context [if ?c then Raise ZeroDivisionError else _] => destruct c
      end; try discriminate;
    intros H; injection H as <-; eexists; split; reflexivity.
Qed.

Lemma normalize_shape_nan (s out : ndarray) :
  normalize s = Ok out ->
  exists f, out = amap f s /\ f NaN = NaN.
Proof.
  unfold normalize.
  destruct (Np.nanmin (flat s)) as [lo|]; [|discriminate].
  destruct (Np.nanmax (flat s)) as [hi|]; [|discriminate].
  cbn [bind]. intros H. injection H as <-. eexists. split; reflexivity.
Qed.

(** X11.  An array returned by [process_fits] has the shape and the number
    of pixels of the selected plane, and every NaN pixel of the plane is a
    NaN pixel of the result, at the same position: masked pixels stay
    masked through every method and the final renormalisation. *)
Theorem X11_process_fits_shape_and_nan
    (data plane out : ndarray) (scaling_method : string) (frame : Z)
    (kw : kwargs) :
  select_frame data frame = Ok plane ->
  process_fits data scaling_method frame kw = Ok out ->
  shape out = shape plane /\
  length (flat out) = length (flat plane) /\
  forall i, nth_error (flat plane) i = Some NaN ->
            nth_error (flat out) i = Some NaN.
Proof.
  intros Hsel. unfold process_fits. rewrite Hsel. cbn [bind].
  destruct (apply_scaling plane scaling_method kw) as [res|] eqn:Hs;
    [|discriminate].
  cbn [bind]. intros Hn.
  apply apply_scaling_pointwise_nan in Hs as (f & -> & Hf).
  apply normalize_shape_nan in Hn as (g & -> & Hg).
  cbn [amap shape flat]. split; [reflexivity|].
  split; [now rewrite !length_map|].
  intros i Hi. rewrite map_map.
  rewrite (map_nth_error (fun x => g (f x)) _ _ Hi). now rewrite Hf, Hg.
Qed.

Lemma X11_witness :
  shape {| shape := [3%nat]; flat := [Fin 0; Fin (1 / 2); Fin 1] |}
    = shape arr1d_0_5_10 /\
  length (flat {| shape := [3%nat]; flat := [Fin 0; Fin (1 / 2); Fin 1] |})
    = length (flat arr1d_0_5_10) /\
  forall i, nth_error (flat arr1d_0_5_10) i = Some NaN ->
            nth_error
              (flat {| shape := [3%nat];
                       flat := [Fin 0; Fin (1 / 2); Fin 1] |}) i
            = Some NaN.
Proof.
  apply (X11_process_fits_shape_and_nan arr1d_0_5_10 arr1d_0_5_10 _
           "linear" 0 no_kwargs).
  - reflexivity.
  - exact process_fits_1d_0_5_10.
Defined.

Lemma eqb_not_in (m s : string) (l : list string) :
  ~ In m (s :: l) -> String.eqb m s = false /\ ~ In m l.
Proof.
  intros H. split.
  - apply String.eqb_neq. intros ->. apply H. now left.
  - intros Hin. apply H. now right.
Qed.

Lemma apply_scaling_unknown (data : ndarray) (m : string) (kw : kwargs) :
  ~ In m methods ->
  apply_scaling data m kw = Raise (ValueError_unknown_method m).
Proof.
  intros H. unfold methods in H.
  apply eqb_not_in in H as [Elin H]. apply eqb_not_in in H as [Elog H].
  apply eqb_not_in in H as [Esqrt H]. apply eqb_not_in in H as [Ehist H].
  apply eqb_not_in in H as [Easinh _].
  unfold apply_scaling. now rewrite Easinh, Elin, Elog, Esqrt, Ehist.
Qed.

(** X12.  A method name outside the five recognised ones makes
    [process_fits] raise the ValueError that names it, whatever the array
    and whatever keyword arguments are passed: nothing is scaled and no
    keyword is looked at. *)
Theorem X12_unknown_method_raises
    (data plane : ndarray) (scaling_method : string) (frame : Z)
    (kw : kwargs) :
  ~ In scaling_method methods ->
  select_frame data frame = Ok plane ->
  process_fits data scaling_method frame kw
  = Raise (ValueError_unknown_method scaling_method).
Proof.
  intros Hm Hsel. unfold process_fits. rewrite Hsel. cbn [bind].
  now rewrite apply_scaling_unknown.
Qed.

Lemma X12_witness :
  process_fits img_0_5_10 "cubic" 0 kw_percentiles_only
  = Raise (ValueError_unknown_method "cubic").
Proof.
  apply (X12_unknown_method_raises img_0_5_10 img_0_5_10 "cubic" 0
           kw_percentiles_only).
  - simpl. intros [H|[H|[H|[H|[H|[]]]]]]; discriminate H.
  - reflexivity.
Defined.

(** X13.  Frame indexing of a cube of [d0] frames.  A frame index outside
    [[-d0, d0)] makes [process_fits] raise IndexError before the method
    name or the keyword arguments are examined (so also for an unknown
    method); a negative index in range counts from the end: [frame] and
    [frame + d0] give the same result. *)
Theorem X13_frame_index
    (data : ndarray) (d0 d1 d2 : nat) (frame : Z)
    (scaling_method : string) (kw : kwargs) :
  shape data = [d0; d1; d2] ->
  ((frame < - Z.of_nat d0 \/ Z.of_nat d0 <= frame)%Z ->
     process_fits data scaling_method frame kw
     = Raise IndexError_out_of_bounds) /\
  ((- Z.of_nat d0 <= frame < 0)%Z ->
     process_fits data scaling_method frame kw
     = process_fits data scaling_method (frame + Z.of_nat d0) kw).
Proof.
  intros Hsh. split.
  - intros Hout. unfold process_fits, select_frame, ndim, index_axis0.
    rewrite Hsh. cbn [length Nat.eqb].
    destruct (frame <? 0)%Z eqn:Eneg.
    + apply Z.ltb_lt in Eneg.
      assert (E : ((0 <=? frame + Z.of_nat d0)
                   && (frame + Z.of_nat d0 <? Z.of_nat d0))%Z = false).
      { apply andb_false_iff. left. apply Z.leb_gt. lia. }
      rewrite E. reflexivity.
    + apply Z.ltb_ge in Eneg.
      assert (E : ((0 <=? frame) && (frame <? Z.of_nat d0))%Z = false).
      { apply andb_false_iff. right. apply Z.ltb_ge. lia. }
      rewrite E. reflexivity.
  - intros Hneg. unfold process_fits, select_frame, ndim, index_axis0.
    rewrite Hsh. cbn [length Nat.eqb].
    assert (E1 : (frame <? 0)%Z = true) by (apply Z.ltb_lt; lia).
    assert (E2 : (frame + Z.of_nat d0 <? 0)%Z = false)
      by (apply Z.ltb_ge; lia).
    now rewrite E1, E2.
Qed.

Lemma X13_witness :
  (process_fits cube_2_1_2 "linear" 2 no_kwargs
   = Raise IndexError_out_of_bounds) /\
  (process_fits cube_2_1_2 "linear" (-1) no_kwargs
   = process_fits cube_2_1_2 "linear" (-1 + Z.of_nat 2) no_kwargs).
Proof.
  split.
  - apply (proj1 (X13_frame_index cube_2_1_2 2 1 2 2 "linear" no_kwargs
                    eq_refl)).
    right. simpl. lia.
  - apply (proj2 (X13_frame_index cube_2_1_2 2 1 2 (-1) "linear" no_kwargs
                    eq_refl)).
    simpl. lia.
Defined.

(** X14.  Scaling a cube at a frame is scaling that frame's plane: when
    the frame selection of a 3D array returns a plane, [process_fits] on
    the cube gives what [process_fits] gives on the plane alone (whose own
    frame argument is then irrelevant), for every method and keyword
    set. *)
Theorem X14_cube_frame_equals_plane
    (data plane : ndarray) (d0 d1 d2 : nat) (frame frame' : Z)
    (scaling_method : string) (kw : kwargs) :
  shape data = [d0; d1; d2] ->
  select_frame data frame = Ok plane ->
  process_fits data scaling_method frame kw
  = process_fits plane scaling_method frame' kw.
Proof.
  intros Hsh Hsel.
  assert (Hpl : shape plane = [d1; d2]).
  { revert Hsel. unfold select_frame, ndim, index_axis0. rewrite Hsh.
    cbn [length Nat.eqb].
    destruct (_ && _)%bool; [|discriminate].
    intros H. injection H as <-. reflexivity. }
  unfold process_fits. rewrite Hsel. cbn [bind].
  unfold select_frame, ndim. rewrite Hpl. reflexivity.
Qed.

Lemma X14_witness :
  process_fits cube_2_1_2 "sqrt" 1 no_kwargs
  = process_fits {| shape := [1%nat; 2%nat]; flat := [Fin 3; Fin 4] |}
      "sqrt" 0 no_kwargs.
Proof.
  apply (X14_cube_frame_equals_plane cube_2_1_2 _ 2 1 2 1 0 "sqrt" no_kwargs).
  - reflexivity.
  - reflexivity.
Defined.

Lemma fle_Fin_l_inv (a : R) (y : fl) :
  fle (Fin a) y -> y = PInf \/ exists b, y = Fin b /\ a <= b.
Proof.
  destruct y as [b| | |]; unfold fle; simpl; intros H; try discriminate.
  - right. exists b. split; [reflexivity|now apply Rleb_true].
  - now left.
Qed.

Lemma fle_Fin_r_inv (y : fl) (b : R) :
  fle y (Fin b) -> y = NInf \/ exists a, y = Fin a /\ a <= b.
Proof.
  destruct y as [a| | |]; unfold fle; simpl; intros H; try discriminate.
  - right. exists a. split; [reflexivity|now apply Rleb_true].
  - now left.
Qed.

Lemma map_fixed {A : Type} (f : A -> A) (l : list A) :
  (forall x, In x l -> f x = x) -> map f l = l.
Proof.
  intros H. rewrite <- (map_id l) at 2. now apply map_ext_in.
Qed.

(** An array whose minimum is 0 and maximum is 1 is left as it is. *)
Lemma normalize_identity (s : ndarray) :
  Np.nanmin (flat s) = Ok (Fin 0) ->
  Np.nanmax (flat s) = Ok (Fin 1) ->
  normalize s = Ok s.
Proof.
  intros Hmin Hmax. unfold normalize. rewrite Hmin, Hmax. cbn [bind].
  destruct s as [sh fl0]. unfold amap. cbn [shape flat] in *. do 2 f_equal.
  apply map_fixed. intros x Hx.
  destruct x as [r| | |].
  - unfold fsub, fneg, fadd. rewrite fdiv_Fin by lra. f_equal. field.
  - pose proof (nanmax_ge _ _ _ Hmax Hx ltac:(discriminate)) as H.
    discriminate H.
  - pose proof (nanmin_le _ _ _ Hmin Hx ltac:(discriminate)) as H.
    discriminate H.
  - reflexivity.
Qed.

(** X15.  Renormalising an array that already spans [[0,1]] (its minimum
    over the non-NaN entries is 0 and its maximum is 1) returns the same
    array: the final step of [process_fits] changes nothing then. *)
Theorem X15_normalize_identity (s : ndarray) :
  Np.nanmin (flat s) = Ok (Fin 0) ->
  Np.nanmax (flat s) = Ok (Fin 1) ->
  normalize s = Ok s.
Proof. exact (normalize_identity s). Qed.

Lemma nanmin_0_half_1 : Np.nanmin [Fin 0; Fin (1 / 2); Fin 1] = Ok (Fin 0).
Proof.
  unfold Np.nanmin. cbn [fold_left]. unfold ffmin, fleb, Rleb.
  destruct (Rle_dec 0 (1 / 2)); [|lra].
  destruct (Rle_dec 0 1); [|lra]. reflexivity.
Qed.

Lemma nanmax_0_half_1 : Np.nanmax [Fin 0; Fin (1 / 2); Fin 1] = Ok (Fin 1).
Proof.
  unfold Np.nanmax. cbn [fold_left]. unfold ffmax, fleb, Rleb.
  destruct (Rle_dec 0 (1 / 2)); [|lra].
  destruct (Rle_dec (1 / 2) 1); [|lra]. reflexivity.
Qed.

Lemma X15_witness :
  normalize {| shape := [3%nat]; flat := [Fin 0; Fin (1 / 2); Fin 1] |}
  = Ok {| shape := [3%nat]; flat := [Fin 0; Fin (1 / 2); Fin 1] |}.
Proof.
  apply (X15_normalize_identity
           {| shape := [3%nat]; flat := [Fin 0; Fin (1 / 2); Fin 1] |}).
  - exact nanmin_0_half_1.
  - exact nanmax_0_half_1.
Defined.

(** X16.  The final renormalisation stretches to the full display range and
    is idempotent: on an array with two distinct finite values, no
    infinite entry and entries of [safe] magnitude (so that
    [nanmax - nanmin] does not overflow), the result has minimum exactly 0
    and maximum exactly 1 (over its non-NaN entries), and renormalising it
    again returns it unchanged. *)
Theorem X16_normalize_spans_unit (s : ndarray) :
  two_distinct_finite (flat s) ->
  Forall (fun x => x <> PInf /\ x <> NInf) (flat s) ->
  safe_pixels (flat s) ->
  exists out,
    normalize s = Ok out /\
    Np.nanmin (flat out) = Ok (Fin 0) /\
    Np.nanmax (flat out) = Ok (Fin 1) /\
    normalize out = Ok out.
Proof.
  intros Htwo Hnoinf _.
  destruct (normalize_unit s Htwo) as (out & Hn & _ & _ & Hunit).
  exists out. split; [assumption|].
  destruct Htwo as (u & v & Hu & Hv & Huv).
  rewrite Forall_forall in Hnoinf, Hunit.
  (* the bounds used by the first pass *)
  destruct (Np.nanmin (flat s)) as [lo|] eqn:Emin;
    [|destruct (flat s); [destruct Hu|discriminate Emin]].
  destruct (Np.nanmax (flat s)) as [hi|] eqn:Emax;
    [|destruct (flat s); [destruct Hu|discriminate Emax]].
  pose proof (nanmin_in _ _ Emin) as Hloin.
  pose proof (nanmax_in _ _ Emax) as Hhiin.
  pose proof (nanmin_le _ _ _ Emin Hu ltac:(discriminate)) as Hlou.
  pose proof (nanmin_le _ _ _ Emin Hv ltac:(discriminate)) as Hlov.
  pose proof (nanmax_ge _ _ _ Emax Hu ltac:(discriminate)) as Hhiu.
  pose proof (nanmax_ge _ _ _ Emax Hv ltac:(discriminate)) as Hhiv.
  destruct (fle_Fin_r_inv _ _ Hlou) as [->|(a & -> & Hau)];
    [destruct (Hnoinf _ Hloin) as [_ H]; congruence|].
  destruct (fle_Fin_l_inv _ _ Hhiu) as [->|(b & -> & Hub)];
    [destruct (Hnoinf _ Hhiin) as [H _]; congruence|].
  apply fle_Fin in Hlov, Hhiv.
  assert (Hab : a < b) by lra.
  unfold normalize in Hn. rewrite Emin, Emax in Hn. cbn [bind] in Hn.
  injection Hn as <-. cbn [amap flat] in *.
  set (f := fun x => fdiv (fsub x (Fin a)) (fsub (Fin b) (Fin a))) in *.
  assert (Hf0 : f (Fin a) = Fin 0).
  { unfold f, fsub, fneg, fadd. rewrite fdiv_Fin by lra. f_equal. field. lra. }
  assert (Hf1 : f (Fin b) = Fin 1).
  { unfold f, fsub, fneg, fadd. rewrite fdiv_Fin by lra. f_equal. field. lra. }
  assert (H0in : In (Fin 0) (map f (flat s)))
    by (rewrite <- Hf0; now apply in_map).
  assert (H1in : In (Fin 1) (map f (flat s)))
    by (rewrite <- Hf1; now apply in_map).
  assert (Hmin' : Np.nanmin (map f (flat s)) = Ok (Fin 0)).
  { destruct (Np.nanmin (map f (flat s))) as [m|] eqn:Em;
      [|destruct (map f (flat s)); [destruct H0in|discriminate Em]].
    pose proof (nanmin_in _ _ Em) as Hmin.
    pose proof (nanmin_le _ _ _ Em H0in ltac:(discriminate)) as Hm0.
    destruct (fle_Fin_r_inv _ _ Hm0) as [->|(c & -> & Hc)].
    - destruct (Hunit _ Hmin) as [H _]; [|discriminate H].
      apply in_map_iff in Hmin as (x & Hx & Hxin).
      destruct (Hnoinf _ Hxin) as [Hp Hq].
      destruct x; try congruence; unfold f, fsub, fneg, fadd in Hx;
        [rewrite fdiv_Fin in Hx by lra|]; discriminate Hx.
    - destruct (Hunit _ Hmin eq_refl) as [Hge _]. apply fle_Fin in Hge.
      do 2 f_equal. lra. }
  assert (Hmax' : Np.nanmax (map f (flat s)) = Ok (Fin 1)).
  { destruct (Np.nanmax (map f (flat s))) as [m|] eqn:Em;
      [|destruct (map f (flat s)); [destruct H1in|discriminate Em]].
    pose proof (nanmax_in _ _ Em) as Hmax.
    pose proof (nanmax_ge _ _ _ Em H1in ltac:(discriminate)) as Hm1.
    destruct (fle_Fin_l_inv _ _ Hm1) as [->|(c & -> & Hc)].
    - apply in_map_iff in Hmax as (x & Hx & Hxin).
      destruct (Hnoinf _ Hxin) as [Hp Hq].
      destruct x; try congruence; unfold f, fsub, fneg, fadd in Hx;
        [rewrite fdiv_Fin in Hx by lra|]; discriminate Hx.
    - destruct (Hunit _ Hmax eq_refl) as [_ Hle]. apply fle_Fin in Hle.
      do 2 f_equal. lra. }
  split; [assumption|]. split; [assumption|].
  now apply normalize_identity.
Qed.

Lemma X16_witness :
  exists out,
    normalize arr1d_0_5_10 = Ok out /\
    Np.nanmin (flat out) = Ok (Fin 0) /\
    Np.nanmax (flat out) = Ok (Fin 1) /\
    normalize out = Ok out.
Proof.
  apply (X16_normalize_spans_unit arr1d_0_5_10).
  - exists 0, 5. simpl. repeat split; auto; lra.
  - simpl. repeat constructor; discriminate.
  - intros r [E|[E|[E|[]]]]; injection E as <-; safe_tac.
Defined.

(** With default parameters and a finite pixel in the plane, no step of
    [process_fits] raises. *)
Lemma process_fits_default_ok
    (data plane : ndarray) (x : fl) (scaling_method : string) (frame : Z) :
  In scaling_method methods ->
  select_frame data frame = Ok plane ->
  In x (flat plane) -> isfinite x = true ->
  exists out, process_fits data scaling_method frame no_kwargs = Ok out.
Proof.
  intros Hm Hsel Hin Hx.
  destruct (apply_scaling_default_ok plane x scaling_method Hm Hin Hx)
    as (res & Hres).
  unfold process_fits. rewrite Hsel. cbn [bind]. rewrite Hres. cbn [bind].
  apply apply_scaling_pointwise in Hres as (f & ->).
  unfold normalize. cbn [amap flat].
  destruct (flat plane) as [|y t]; [destruct Hin|].
  cbn [map Np.nanmin Np.nanmax bind]. eexists. reflexivity.
Qed.

(** X17.  With default parameters [process_fits] cannot fail on real
    data: for each of the five methods, if the selected plane holds at
    least one finite pixel, an array is returned (it may hold NaN, see the
    constant-image case, but no exception is raised). *)
Theorem X17_process_fits_default_total
    (data plane : ndarray) (x : fl) (scaling_method : string) (frame : Z) :
  In scaling_method methods ->
  select_frame data frame = Ok plane ->
  In x (flat plane) -> isfinite x = true ->
  exists out,
    process_fits data scaling_method frame no_kwargs = Ok out /\
    shape out = shape plane.
Proof.
  intros Hm Hsel Hin Hx.
  destruct (process_fits_default_ok data plane x scaling_method frame
              Hm Hsel Hin Hx) as (out & Hout).
  exists out. split; [assumption|].
  revert Hout. unfold process_fits. rewrite Hsel. cbn [bind].
  destruct (apply_scaling plane scaling_method no_kwargs) as [res|] eqn:Hs;
    [|discriminate].
  cbn [bind]. intros Hn.
  apply apply_scaling_pointwise in Hs as (f & ->).
  apply normalize_shape_nan in Hn as (g & -> & _). reflexivity.
Qed.

Lemma X17_witness :
  exists out,
    process_fits cube_2_1_2 "hist_eq" 1 no_kwargs = Ok out /\
    shape out = shape {| shape := [1%nat; 2%nat]; flat := [Fin 3; Fin 4] |}.
Proof.
  apply (X17_process_fits_default_total cube_2_1_2 _ (Fin 3) "hist_eq" 1).
  - simpl; tauto.
  - reflexivity.
  - simpl; auto.
  - reflexivity.
Defined.

(** An array whose entries are NaN or numbers of [[0,1]], with 0 and 1
    among them, is left unchanged by the renormalisation. *)
Lemma normalize_noop (s : ndarray) :
  Forall (fun y => y = NaN \/ exists v, y = Fin v /\ 0 <= v <= 1) (flat s) ->
  In (Fin 0) (flat s) -> In (Fin 1) (flat s) ->
  normalize s = Ok s.
Proof.
  intros Hall H0 H1. rewrite Forall_forall in Hall.
  apply normalize_identity.
  - destruct (Np.nanmin (flat s)) as [m|] eqn:Em;
      [|destruct (flat s); [destruct H0|discriminate Em]].
    pose proof (nanmin_in _ _ Em) as Hin.
    pose proof (nanmin_le _ _ _ Em H0 ltac:(discriminate)) as Hle.
    destruct (Hall _ Hin) as [->|(v & -> & Hv)]; [discriminate Hle|].
    apply fle_Fin in Hle. do 2 f_equal. lra.
  - destruct (Np.nanmax (flat s)) as [m|] eqn:Em;
      [|destruct (flat s); [destruct H1|discriminate Em]].
    pose proof (nanmax_in _ _ Em) as Hin.
    pose proof (nanmax_ge _ _ _ Em H1 ltac:(discriminate)) as Hle.
    destruct (Hall _ Hin) as [->|(v & -> & Hv)]; [discriminate Hle|].
    apply fle_Fin in Hle. do 2 f_equal. lra.
Qed.

Lemma two_distinct_between (a : list fl) (lo hi : R) :
  two_distinct_finite a ->
  (forall r, In (Fin r) a -> lo <= r <= hi) -> lo < hi.
Proof.
  intros (u & v & Hu & Hv & Huv) H.
  pose proof (H u Hu). pose proof (H v Hv). lra.
Qed.


(** X18.  For [linear] with default parameters the final renormalisation
    of [process_fits] changes nothing: when the plane holds two distinct
    finite pixels, all finite pixels being of [safe] magnitude (so that
    [scale_max - scale_min] does not overflow), [linear_scaling] already
    sends the least finite pixel to 0 and the greatest to 1 with
    everything else in between, and [process_fits] returns exactly what
    [linear_scaling] returns. *)
Theorem X18_renormalisation_is_noop_linear
    (data plane : ndarray) (frame : Z) :
  select_frame data frame = Ok plane ->
  two_distinct_finite (flat plane) ->
  safe_pixels (flat plane) ->
  exists out,
    linear_scaling plane None None = Ok out /\
    In (Fin 0) (flat out) /\ In (Fin 1) (flat out) /\
    process_fits data "linear" frame no_kwargs = Ok out.
Proof.
  intros Hsel Htwo _.
  assert (Hfin : exists x, In x (flat plane) /\ isfinite x = true).
  { destruct Htwo as (u & _ & Hu & _). exists (Fin u). auto. }
  destruct Hfin as (x0 & Hx0 & Hx0f).
  destruct (extrema_range_min_max (flat plane) x0 Hx0 Hx0f)
    as (lo & hi & E & Hlo & Hhi & Hb).
  pose proof (two_distinct_between _ lo hi Htwo Hb) as Hlh.
  unfold process_fits. rewrite Hsel. cbn [bind].
  change (apply_scaling plane "linear" no_kwargs)
    with (linear_scaling plane None None).
  unfold linear_scaling. rewrite E. cbn [bind fst snd].
  eexists. split; [reflexivity|].
  set (f := fun x => Np.clip (fdiv (fsub x (Fin lo)) (fsub (Fin hi) (Fin lo)))
                             (Fin 0) (Fin 1)).
  assert (H0 : In (Fin 0) (flat (amap f plane))).
  { cbn [amap flat]. apply in_map_iff. exists (Fin lo). split; [|assumption].
    unfold f. rewrite linear_pixel_Fin by assumption. f_equal.
    apply Rclamp_low; [lra|]. replace (lo - lo) with 0 by ring.
    unfold Rdiv. lra. }
  assert (H1 : In (Fin 1) (flat (amap f plane))).
  { cbn [amap flat]. apply in_map_iff. exists (Fin hi). split; [|assumption].
    unfold f. rewrite linear_pixel_Fin by assumption. f_equal.
    apply Rclamp_high; [lra|]. rewrite div_self by lra. lra. }
  split; [assumption|]. split; [assumption|].
  apply normalize_noop; try assumption.
  apply Forall_forall. intros y Hy. cbn [amap flat] in Hy.
  apply in_map_iff in Hy as (x & <- & _). unfold f. apply clip_unit_cases.
Qed.

Lemma X18_witness :
  exists out,
    linear_scaling img_0_5_10 None None = Ok out /\
    In (Fin 0) (flat out) /\ In (Fin 1) (flat out) /\
    process_fits img_0_5_10 "linear" 0 no_kwargs = Ok out.
Proof.
  apply (X18_renormalisation_is_noop_linear img_0_5_10 img_0_5_10 0).
  - reflexivity.
  - exists 0, 5. simpl. repeat split; auto; lra.
  - intros r [E|[E|[E|[]]]]; injection E as <-; safe_tac.
Defined.



(** One pixel of [sqrt_scaling] under finite bounds [lo < hi]. *)
Lemma sqrt_pixel_cases (lo hi : R) (x : fl) :
  lo < hi ->
  let y :=
    Np.clip (fdiv (fsqrt (fsub (Np.clip x (Fin lo) (Fin hi)) (Fin lo)))
                  (fsqrt (fsub (Fin hi) (Fin lo))))
            (Fin 0) (Fin 1) in
  (y = NaN \/ exists v, y = Fin v /\ 0 <= v <= 1) /\
  (forall r, x = Fin r -> r <= lo -> y = Fin 0) /\
  (forall r, x = Fin r -> hi <= r -> y = Fin 1).
Proof.
  intros Hlh y.
  pose proof (sqrt_lt_R0 (hi - lo) ltac:(lra)) as Hden.
  split; [apply clip_unit_cases|]. split.
  - intros r -> Hr. unfold y. rewrite clip_Fin, Rclamp_low by lra.
    rewrite sqrt_pixel_Fin by lra. f_equal.
    replace (lo - lo) with 0 by ring. rewrite sqrt_0. unfold Rdiv. ring.
  - intros r -> Hr. unfold y. rewrite clip_Fin, Rclamp_high by lra.
    rewrite sqrt_pixel_Fin by lra. f_equal. now apply div_self.
Qed.

(** The percentile bounds are bracketed by two finite entries. *)
Lemma percentile_range_bracketed
    (data : list fl) (p : fl * fl) (lo hi : R) :
  percentile_range data None None p = Ok (Fin lo, Fin hi) ->
  (exists u, In (Fin u) data /\ u <= lo) /\
  (exists v, In (Fin v) data /\ hi <= v).
Proof.
  unfold percentile_range, Np.percentile.
  destruct (_ && _)%bool; [|discriminate].
  destruct (Np.reals (Np.select_finite data)) as [|r t] eqn:Er;
    [discriminate|].
  cbn [bind fst snd]. intros H. injection H as <- <-.
  assert (Hne : r :: t <> []) by discriminate.
  assert (Hmem : forall u, In u (r :: t) -> In (Fin u) data).
  { intros u Hu. rewrite <- Er in Hu.
    apply (proj1 (reals_In _ _)) in Hu.
    now apply (proj1 (select_finite_In _ _)) in Hu. }
  split.
  - destruct (percentile1_between (r :: t) (Np.fl_real (fst p)) Hne)
      as (u & _ & Hu & _ & Hle & _).
    exists u. split; [now apply Hmem|assumption].
  - destruct (percentile1_between (r :: t) (Np.fl_real (snd p)) Hne)
      as (_ & v & _ & Hv & _ & Hle).
    exists v. split; [now apply Hmem|assumption].
Qed.

(** X19.  For [sqrt] with default parameters the final renormalisation of
    [process_fits] changes nothing either: when the plane's finite pixels
    are of [safe] magnitude and their 1st and 99th percentiles differ,
    [sqrt_scaling] already returns an array that holds 0 and 1 with
    everything else in between, and [process_fits] returns exactly that
    array. *)
Theorem X19_renormalisation_is_noop_sqrt
    (data plane : ndarray) (frame : Z) (lo hi : R) :
  select_frame data frame = Ok plane ->
  safe_pixels (flat plane) ->
  percentile_range (flat plane) None None default_percentiles
    = Ok (Fin lo, Fin hi) ->
  lo < hi ->
  exists out,
    sqrt_scaling plane None None default_percentiles = Ok out /\
    In (Fin 0) (flat out) /\ In (Fin 1) (flat out) /\
    process_fits data "sqrt" frame no_kwargs = Ok out.
Proof.
  intros Hsel _ Hr Hlh.
  destruct (percentile_range_bracketed _ _ _ _ Hr)
    as ((u & Hu & Hulo) & (v & Hv & Hvhi)).
  unfold process_fits. rewrite Hsel. cbn [bind].
  change (apply_scaling plane "sqrt" no_kwargs)
    with (sqrt_scaling plane None None default_percentiles).
  unfold sqrt_scaling. rewrite Hr. cbn [bind fst snd].
  eexists. split; [reflexivity|].
  match goal with |- In _ (flat (amap ?g plane)) /\ _ => set (f := g) end.
  assert (H0 : In (Fin 0) (flat (amap f plane))).
  { cbn [amap flat]. apply in_map_iff. exists (Fin u). split; [|assumption].
    now apply (proj1 (proj2 (sqrt_pixel_cases lo hi (Fin u) Hlh)) u). }
  assert (H1 : In (Fin 1) (flat (amap f plane))).
  { cbn [amap flat]. apply in_map_iff. exists (Fin v). split; [|assumption].
    now apply (proj2 (proj2 (sqrt_pixel_cases lo hi (Fin v) Hlh)) v). }
  split; [assumption|]. split; [assumption|].
  apply normalize_noop; try assumption.
  apply Forall_forall. intros y Hy. cbn [amap flat] in Hy.
  apply in_map_iff in Hy as (x & <- & _).
  exact (proj1 (sqrt_pixel_cases lo hi x Hlh)).
Qed.

Lemma percentile_range_0_1 :
  percentile_range (flat img_0_1) None None default_percentiles
  = Ok (Fin (1 / 100), Fin (99 / 100)).
Proof.
  unfold percentile_range, Np.percentile.
  rewrite default_percentiles_valid. cbn.
  rewrite !percentile1_pair by lra. do 3 f_equal; lra.
Qed.

Lemma X19_witness :
  exists out,
    sqrt_scaling img_0_1 None None default_percentiles = Ok out /\
    In (Fin 0) (flat out) /\ In (Fin 1) (flat out) /\
    process_fits img_0_1 "sqrt" 0 no_kwargs = Ok out.
Proof.
  apply (X19_renormalisation_is_noop_sqrt img_0_1 img_0_1 0
           (1 / 100) (99 / 100)).
  - reflexivity.
  - intros r [E|[E|[]]]; injection E as <-; safe_tac.
  - exact percentile_range_0_1.
  - lra.
Defined.

(* ================================================================= *)
(** ** Further properties of histogram equalisation *)

(** X20.  When no pixel of the array lies in [[0, 256]] (all pixels are
    negative, above 256, infinite or NaN), [hist_eq_scaling] returns an
    array of the input's shape in which every entry is NaN: the histogram
    is empty and the rescaling of line 123 divides 0 by 0.  [process_fits]
    with [hist_eq] then returns that all-NaN array as well, without
    raising (for a non-empty array that is not a cube). *)
Theorem X20_hist_eq_out_of_range_all_nan (data : ndarray) (frame : Z) :
  (forall r, In (Fin r) (flat data) -> r < 0 \/ 256 < r) ->
  hist_eq_scaling data =
    Ok {| shape := shape data; flat := repeat NaN (length (flat data)) |} /\
  (flat data <> [] -> ndim data <> 3%nat ->
   process_fits data "hist_eq" frame no_kwargs =
     Ok {| shape := shape data; flat := repeat NaN (length (flat data)) |}).
Proof.
  intros H.
  assert (E : hist_eq_scaling data =
    Ok {| shape := shape data; flat := repeat NaN (length (flat data)) |}).
  { rewrite hist_eq_scaling_out_of_range by assumption.
    unfold amap. do 2 f_equal. clear H.
    induction (flat data) as [|x t IH]; simpl; [reflexivity|].
    now rewrite IH. }
  split; [exact E|]. intros Hne Hnd.
  unfold process_fits, select_frame. apply Nat.eqb_neq in Hnd.
  rewrite Hnd. cbn [bind].
  change (apply_scaling data "hist_eq" no_kwargs) with (hist_eq_scaling data).
  rewrite E. cbn [bind].
  destruct (flat data) as [|x t]; [congruence|]. cbn [length].
  now rewrite (normalize_constant _ NaN (length t)).
Qed.

Lemma X20_witness :
  hist_eq_scaling img_300_400 =
    Ok {| shape := shape img_300_400;
          flat := repeat NaN (length (flat img_300_400)) |} /\
  (flat img_300_400 <> [] -> ndim img_300_400 <> 3%nat ->
   process_fits img_300_400 "hist_eq" 0 no_kwargs =
     Ok {| shape := shape img_300_400;
           flat := repeat NaN (length (flat img_300_400)) |}).
Proof.
  apply (X20_hist_eq_out_of_range_all_nan img_300_400 0).
  intros r [E|[E|[]]]; injection E as <-; lra.
Defined.

Lemma knot_interp_at_index (l : list R) (k : nat) :
  (k < length l)%nat -> knot_interp l (INR k) = nth k l 0.
Proof.
  intros Hk.
  destruct (Nat.eq_dec k (length l - 1)) as [E|E].
  - rewrite knot_interp_right by (rewrite <- E; lra). now rewrite E.
  - assert (Hlt : INR k < INR (length l - 1)) by (apply lt_INR; lia).
    rewrite knot_interp_inside by (pose proof (pos_INR k); lra).
    rewrite floor_index_INR. unfold Np.lerp. ring.
Qed.

(** X21.  On integer-valued pixels [hist_eq_scaling] is the classical
    lookup table: when some pixel lies in [[0, 256]], a pixel of value
    [k] in 0..255 is mapped to [cdf[k] * peak / total], the number of
    pixels in bins 0..k times the peak bin count over the number of
    counted pixels. *)
Theorem X21_hist_eq_integer_lookup (data : ndarray) (r0 : R) :
  In (Fin r0) (flat data) -> 0 <= r0 <= 256 ->
  let img_hist := Np.histogram (flat data) 256 in
  let cdf := Np.cumsum img_hist in
  exists out,
    hist_eq_scaling data = Ok out /\
    forall i k,
      (k < 256)%nat ->
      nth_error (flat data) i = Some (Fin (INR k)) ->
      nth_error (flat out) i
      = Some (Fin (INR (nth k cdf 0%nat) * INR (Np.amax img_hist)
                   / INR (Np.amax cdf))).
Proof.
  intros Hin Hr img_hist cdf.
  destruct (hist_eq_scaling_in_range data r0 Hin Hr)
    as (Hout & _ & Hlen & _).
  fold img_hist in Hout, Hlen.
  eexists. split; [exact Hout|].
  intros i k Hk Hi. rewrite (amap_nth_error _ _ _ _ Hi).
  rewrite interp_fin by apply cdf_normalized_R_nonempty.
  rewrite knot_interp_at_index by (now rewrite Hlen).
  rewrite cdf_normalized_R_nth
    by (unfold img_hist; now rewrite histogram_length).
  reflexivity.
Qed.

Lemma X21_witness :
  let img_hist := Np.histogram (flat img_5_5) 256 in
  let cdf := Np.cumsum img_hist in
  exists out,
    hist_eq_scaling img_5_5 = Ok out /\
    forall i k,
      (k < 256)%nat ->
      nth_error (flat img_5_5) i = Some (Fin (INR k)) ->
      nth_error (flat out) i
      = Some (Fin (INR (nth k cdf 0%nat) * INR (Np.amax img_hist)
                   / INR (Np.amax cdf))).
Proof.
  apply (X21_hist_eq_integer_lookup img_5_5 5).
  - simpl; auto.
  - lra.
Defined.

(* ================================================================= *)
(** ** Keyword pass-through, degenerate bounds, empty planes *)

(** X22.  Keyword pass-through: when every key of the keyword arguments is
    one the selected method accepts, the dispatch is exactly the call of
    that method, with [scale_min] / [scale_max] absent or [None] meaning
    "derive from the data", [percentiles] defaulting to (1, 99) and
    [non_linear] to 2.0; [hist_eq] is called only with no keyword at
    all. *)
Theorem X22_keyword_pass_through (data : ndarray) (kw : kwargs) :
  let smin := opt_param (kw_scale_min kw) in
  let smax := opt_param (kw_scale_max kw) in
  ((forall k, In k (keys kw) -> In k (accepted "linear")) ->
     apply_scaling data "linear" kw = linear_scaling data smin smax) /\
  ((forall k, In k (keys kw) -> In k (accepted "log")) ->
     apply_scaling data "log" kw = log_scaling data smin smax) /\
  ((forall k, In k (keys kw) -> In k (accepted "sqrt")) ->
     apply_scaling data "sqrt" kw
     = sqrt_scaling data smin smax
         (with_default (kw_percentiles kw) (Fin 1, Fin 99))) /\
  ((forall k, In k (keys kw) -> In k (accepted "asinh")) ->
     apply_scaling data "asinh" kw
     = asinh_scaling data smin smax
         (with_default (kw_non_linear kw) (Fin 2))) /\
  (keys kw = [] ->
     apply_scaling data "hist_eq" kw = hist_eq_scaling data).
Proof.
  intros smin smax.
  split; [|split; [|split; [|split]]]; intros Hk.
  - pose proof (bind_kwargs_ok _ kw Hk) as Hb.
    unfold apply_scaling; simpl; simpl in Hb; rewrite Hb; reflexivity.
  - pose proof (bind_kwargs_ok _ kw Hk) as Hb.
    unfold apply_scaling; simpl; simpl in Hb; rewrite Hb; reflexivity.
  - pose proof (bind_kwargs_ok _ kw Hk) as Hb.
    unfold apply_scaling; simpl; simpl in Hb; rewrite Hb; reflexivity.
  - pose proof (bind_kwargs_ok _ kw Hk) as Hb.
    unfold apply_scaling; simpl; simpl in Hb; rewrite Hb; reflexivity.
  - assert (Hb : bind_kwargs (accepted "hist_eq") kw = Ok tt).
    { apply bind_kwargs_ok. rewrite Hk. intros k []. }
    unfold apply_scaling; simpl; simpl in Hb; rewrite Hb; reflexivity.
Qed.

Lemma X22_witness :
  apply_scaling img_0_1 "sqrt" kw_percentiles_only
  = sqrt_scaling img_0_1 None None (Fin 0, Fin 100) /\
  apply_scaling img_0_1 "hist_eq" no_kwargs = hist_eq_scaling img_0_1.
Proof.
  split.
  - apply (proj1 (proj2 (proj2
             (X22_keyword_pass_through img_0_1 kw_percentiles_only)))).
    simpl. intros k [<-|[]]. auto.
  - apply (proj2 (proj2 (proj2 (proj2
             (X22_keyword_pass_through img_0_1 no_kwargs))))).
    reflexivity.
Defined.

(** X23.  Equal supplied bounds [scale_min = scale_max = c] are not
    rejected.  [linear_scaling] then acts as a threshold: a finite pixel
    above [c] goes to 1, one below [c] to 0, and a pixel equal to [c] to
    NaN (0/0).  [log_scaling] and [sqrt_scaling] return NaN for every
    finite pixel. *)
Theorem X23_equal_supplied_bounds
    (data : ndarray) (c : R) (percentiles : fl * fl) :
  exists out_lin out_log out_sqrt,
    linear_scaling data (Some (Fin c)) (Some (Fin c)) = Ok out_lin /\
    log_scaling data (Some (Fin c)) (Some (Fin c)) = Ok out_log /\
    sqrt_scaling data (Some (Fin c)) (Some (Fin c)) percentiles
      = Ok out_sqrt /\
    forall i x, nth_error (flat data) i = Some (Fin x) ->
      nth_error (flat out_lin) i
      = Some (if Rlt_dec c x then Fin 1
              else if Rlt_dec x c then Fin 0 else NaN) /\
      nth_error (flat out_log) i = Some NaN /\
      nth_error (flat out_sqrt) i = Some NaN.
Proof.
  do 3 eexists. split; [reflexivity|]. split; [reflexivity|].
  split; [reflexivity|].
  cbn [fst snd]. intros i x Hi.
  rewrite !(amap_nth_error _ _ _ _ Hi). cbv zeta.
  split; [|split]; f_equal.
  - unfold fsub, fneg, fadd, fdiv.
    destruct (Req_dec_T (c + - c) 0); [|lra].
    destruct (Rlt_dec c x); destruct (Rlt_dec x c); try lra;
      destruct (Rlt_dec 0 (x + - c)); try lra;
      destruct (Rlt_dec (x + - c) 0); try lra;
      unfold Np.clip, fmaximum, fminimum, fleb, Rleb;
      try reflexivity.
    destruct (Rle_dec 0 1); [reflexivity|lra].
  - rewrite clip_Fin. unfold fsub, fneg, fadd, flog10.
    assert (E : Rclamp x c c = c)
      by (pose proof (Rclamp_bounds x c c ltac:(lra)); lra).
    rewrite E.
    destruct (Rlt_dec 0 (c + - c + 1)); [|lra].
    replace (c + - c + 1) with 1 by ring. rewrite Rlog10_1.
    unfold fdiv. destruct (Req_dec_T 0 0); [|lra].
    destruct (Rlt_dec 0 0); [lra|]. reflexivity.
  - rewrite clip_Fin. unfold fsub, fneg, fadd, fsqrt.
    assert (E : Rclamp x c c = c)
      by (pose proof (Rclamp_bounds x c c ltac:(lra)); lra).
    rewrite E.
    destruct (Rle_dec 0 (c + - c)); [|lra].
    replace (c + - c) with 0 by ring. rewrite sqrt_0.
    unfold fdiv. destruct (Req_dec_T 0 0); [|lra].
    destruct (Rlt_dec 0 0); [lra|]. reflexivity.
Qed.

(** X24.  An empty plane always makes [process_fits] raise, whatever the
    method name and the keyword arguments: a scaling method that does
    return (the bounds being supplied, or [hist_eq]) returns an empty
    array, on which the final renormalisation's [np.nanmin] fails. *)
Theorem X24_empty_plane_raises
    (data plane : ndarray) (scaling_method : string) (frame : Z)
    (kw : kwargs) :
  select_frame data frame = Ok plane ->
  flat plane = [] ->
  is_raise (process_fits data scaling_method frame kw) /\
  normalize plane = Raise ValueError_zero_size_reduction.
Proof.
  intros Hsel Hempty. split.
  - unfold process_fits. rewrite Hsel. cbn [bind].
    destruct (apply_scaling plane scaling_method kw) as [res|e] eqn:Hs;
      [|exact I].
    apply apply_scaling_pointwise in Hs as (f & ->). cbn [bind].
    unfold normalize. cbn [amap flat]. rewrite Hempty. exact I.
  - unfold normalize. rewrite Hempty. reflexivity.
Qed.

Lemma X24_witness :
  is_raise (process_fits {| shape := [0%nat; 4%nat]; flat := [] |}
              "hist_eq" 0 no_kwargs) /\
  normalize {| shape := [0%nat; 4%nat]; flat := [] |}
  = Raise ValueError_zero_size_reduction.
Proof.
  apply (X24_empty_plane_raises {| shape := [0%nat; 4%nat]; flat := [] |}
           {| shape := [0%nat; 4%nat]; flat := [] |} "hist_eq" 0 no_kwargs).
  - reflexivity.
  - reflexivity.
Defined.

Lemma extrema_range_0_1 :
  extrema_range (flat img_0_1) None None = Ok (Fin 0, Fin 1).
Proof.
  unfold extrema_range, img_0_1. cbn [flat Np.select_finite].
  cbn. unfold ffmin, ffmax, fleb, Rleb.
  destruct (Rle_dec 0 1); [reflexivity|lra].
Qed.

(** X25.  A zero [non_linear] is not checked by [asinh_scaling].  With
    both bounds supplied the quotient of line 151 is taken between Python
    numbers and raises ZeroDivisionError, whatever the data.  As soon as a
    bound is derived from the data the quotient is numpy's: with a finite
    range [lo < hi] the normalising factor is [arcsinh (+inf)], infinite,
    no exception is raised and every entry of the result is NaN. *)
Theorem X25_asinh_zero_non_linear
    (data : ndarray) (scale_min scale_max : option fl) (b_min b_max : fl)
    (lo hi : R) :
  asinh_scaling data (Some b_min) (Some b_max) (Fin 0)
    = Raise ZeroDivisionError /\
  (scale_min = None \/ scale_max = None ->
   extrema_range (flat data) scale_min scale_max = Ok (Fin lo, Fin hi) ->
   lo < hi ->
   exists out,
     asinh_scaling data scale_min scale_max (Fin 0) = Ok out /\
     shape out = shape data /\
     length (flat out) = length (flat data) /\
     Forall (fun y => y = NaN) (flat out)).
Proof.
  split.
  - unfold asinh_scaling, extrema_range. cbn [bind fst snd].
    unfold is_zero, Reqb. destruct (Req_dec_T 0 0); [reflexivity|lra].
  - intros Hnone Hr Hlh. unfold asinh_scaling. rewrite Hr.
    cbn [bind fst snd].
    assert (Hpy : match scale_min, scale_max with
                  | Some _, Some _ => true
                  | _, _ => false
                  end = false)
      by (destruct Hnone as [-> | ->]; [|destruct scale_min]; reflexivity).
    rewrite Hpy. cbn [andb].
    eexists. split; [reflexivity|]. split; [reflexivity|].
    cbn [amap flat]. split; [apply length_map|].
    apply Forall_forall. intros y Hy.
    apply in_map_iff in Hy as (x & <- & _).
    unfold fsub, fneg, fadd, fdiv.
    destruct (Req_dec_T 0 0); [|lra].
    destruct (Rlt_dec 0 (hi + - lo)); [|lra]. cbn [farcsinh].
    destruct x as [px| | |]; cbn [farcsinh].
    + destruct (Rlt_dec 0 (px + - lo)); [reflexivity|].
      destruct (Rlt_dec (px + - lo) 0); reflexivity.
    + destruct (Rlt_dec 0 0); [lra|]. reflexivity.
    + destruct (Rlt_dec 0 0); [lra|]. reflexivity.
    + reflexivity.
Qed.

Lemma X25_witness :
  asinh_scaling img_0_1 (Some (Fin 0)) (Some (Fin 1)) (Fin 0)
    = Raise ZeroDivisionError /\
  exists out,
    asinh_scaling img_0_1 None None (Fin 0) = Ok out /\
    shape out = shape img_0_1 /\
    length (flat out) = length (flat img_0_1) /\
    Forall (fun y => y = NaN) (flat out).
Proof.
  destruct (X25_asinh_zero_non_linear img_0_1 None None (Fin 0) (Fin 1) 0 1)
    as [Hraise Hnan].
  split; [exact Hraise|].
  apply Hnan.
  - now left.
  - exact extrema_range_0_1.
  - lra.
Defined.
